(** * Name extraction pipeline (yardat.pyt/extract_names.py and
      yardat.pyt/extract_names_simple.py)

    A shallow embedding of the two name-extraction scripts and the
    properties of their pipeline.

    Text is a list of 8-bit characters, read as the code points 0..255 of a
    Python [str]; the character tests ([str.isspace], [str.isalpha],
    [str.isupper], [str.islower], the regular-expression classes [\s] and
    [\w], lower-casing under [re.IGNORECASE]) are Python's on that range.

    The regular expressions of the scripts are kept as syntax trees and run
    by a backtracking matcher that returns every way of matching in the
    order in which Python's [re] tries them; the first one is the match. *)

From Stdlib Require Import Ascii String.
From Stdlib Require Import List Bool Arith ZArith Lia.
From Stdlib Require Import DecimalNat DecimalString.
From Stdlib Require Import Permutation Sorted.
Import ListNotations.

Set Implicit Arguments.

Local Open Scope char_scope.
Local Open Scope list_scope.

(** ** Characters and strings *)

Definition str := list ascii.

(** A string literal of the source. *)
Definition lit (s : string) : str := list_ascii_of_string s.

Definition code (c : ascii) : nat := nat_of_ascii c.

Definition between (lo hi : nat) (c : ascii) : bool :=
  Nat.leb lo (code c) && Nat.leb (code c) hi.

(** A range [lo-hi] inside a character set, as in [[A-Z]]. *)
Definition range (lo hi : ascii) (c : ascii) : bool :=
  between (code lo) (code hi) c.

Definition one_of (cs : str) (c : ascii) : bool :=
  existsb (Ascii.eqb c) cs.

(** [str.isspace] on one character, which is also [\s]:
    tab..carriage return, the separators 0x1c..0x1f, space, NEL, NBSP. *)
Definition is_space (c : ascii) : bool :=
  between 9 13 c || between 28 32 c || Nat.eqb (code c) 133
  || Nat.eqb (code c) 160.

(** [str.isupper] on one character: A-Z and the capitals of Latin-1. *)
Definition is_upper (c : ascii) : bool :=
  between 65 90 c || between 192 214 c || between 216 222 c.

(** [str.islower] on one character: a-z, the ordinal indicators, micro
    sign and the small letters of Latin-1. *)
Definition is_lower (c : ascii) : bool :=
  between 97 122 c
  || Nat.eqb (code c) 170 || Nat.eqb (code c) 181 || Nat.eqb (code c) 186
  || between 223 246 c || between 248 255 c.

(** [str.isalpha] on one character. *)
Definition is_alpha (c : ascii) : bool :=
  between 65 90 c || between 97 122 c
  || Nat.eqb (code c) 170 || Nat.eqb (code c) 181 || Nat.eqb (code c) 186
  || between 192 214 c || between 216 246 c || between 248 255 c.

(** [\w]: alphanumeric (letters, decimal digits, and the superscript digits
    and vulgar fractions of Latin-1, which are numeric) or underscore. *)
Definition is_word (c : ascii) : bool :=
  is_alpha c || between 48 57 c || Nat.eqb (code c) 95
  || between 178 179 c || Nat.eqb (code c) 185 || between 188 190 c.

(** Lower-casing of one character, as [re.IGNORECASE] applies it. *)
Definition lower (c : ascii) : ascii :=
  if between 65 90 c || between 192 214 c || between 216 222 c
  then ascii_of_nat (code c + 32) else c.

(** [str.isupper] and [str.islower] on a whole string: no cased
    character of the other case, and at least one cased character. *)
Definition isupper (s : str) : bool :=
  negb (existsb is_lower s) && existsb is_upper s.

Definition islower (s : str) : bool :=
  negb (existsb is_upper s) && existsb is_lower s.

Definition str_eqb (a b : str) : bool :=
  if list_eq_dec ascii_dec a b then true else false.

(** [x in collection] for a set or list of strings. *)
Definition mem (x : str) (l : list str) : bool := existsb (str_eqb x) l.

(** [str.strip()]: whitespace removed at both ends. *)
Fixpoint lstrip (s : str) : str :=
  match s with
  | c :: t => if is_space c then lstrip t else s
  | [] => []
  end.

Definition rstrip (s : str) : str := rev (lstrip (rev s)).

Definition strip (s : str) : str := rstrip (lstrip s).

(** [str.split()]: the maximal runs of non-whitespace characters.
    [cur] is the run being read, most recent character first. *)
Fixpoint split_from (cur : str) (s : str) : list str :=
  match s with
  | [] => match cur with [] => [] | _ => [rev cur] end
  | c :: t =>
      if is_space c
      then match cur with
           | [] => split_from [] t
           | _ => rev cur :: split_from [] t
           end
      else split_from (c :: cur) t
  end.

Definition split (s : str) : list str := split_from [] s.

(** ** Regular expressions *)

Inductive regex : Type :=
| Eps                              (* the empty pattern *)
| Chr (p : ascii -> bool)          (* one character: literal, set or class *)
| Cat (r1 r2 : regex)              (* r1 r2 *)
| Alt (r1 r2 : regex)              (* r1|r2 *)
| Plus (r : regex)                 (* r+, greedy *)
| Opt (r : regex)                  (* r?, greedy *)
| Group (r : regex)                (* (r), the capturing group *)
| Bound                            (* \b *)
| Bol                              (* ^ *)
| Eol.                             (* $ *)

Declare Scope regex_scope.
Delimit Scope regex_scope with re.
Bind Scope regex_scope with regex.
Notation "r1 ;; r2" := (Cat r1 r2)
  (at level 61, right associativity) : regex_scope.
Notation "r1 || r2" := (Alt r1 r2) : regex_scope.

(** The state of a match: the text to the left of the cursor (nearest
    character first), the text to the right, and the capture of the group. *)
Record mstate : Type := MState {
  before : str;
  after : str;
  cap : option str
}.

Definition progress (st st' : mstate) : bool :=
  Nat.ltb (length (after st')) (length (after st)).

(** The text read between two states of one match. *)
Definition consumed (st st' : mstate) : str :=
  rev (firstn (length (before st') - length (before st)) (before st')).

Definition word_before (st : mstate) : bool :=
  match before st with c :: _ => is_word c | [] => false end.

Definition word_after (st : mstate) : bool :=
  match after st with c :: _ => is_word c | [] => false end.

Definition newline : ascii := "010".

Definition at_end (st : mstate) : bool :=
  match after st with
  | [] => true
  | [c] => Ascii.eqb c newline
  | _ => false
  end.

(** Greedy repetition: after one more [step], first try to repeat again,
    then stop.  A step that reads nothing ends the repetition, so the
    number of steps is bounded by the length of the remaining text. *)
Fixpoint iterate (step : mstate -> list mstate) (fuel : nat) (st : mstate)
  : list mstate :=
  flat_map (fun st' =>
              (if progress st st'
               then match fuel with
                    | S f => iterate step f st'
                    | O => []
                    end
               else []) ++ [st'])
           (step st).

(** All the ways in which [r] matches at the cursor, in the order in which
    a backtracking matcher finds them. *)
Fixpoint run (r : regex) (st : mstate) : list mstate :=
  match r with
  | Eps => [st]
  | Chr p =>
      match after st with
      | c :: t => if p c then [MState (c :: before st) t (cap st)] else []
      | [] => []
      end
  | Cat r1 r2 => flat_map (run r2) (run r1 st)
  | Alt r1 r2 => run r1 st ++ run r2 st
  | Plus r1 => iterate (run r1) (length (after st)) st
  | Opt r1 => run r1 st ++ [st]
  | Group r1 =>
      map (fun st' => MState (before st') (after st') (Some (consumed st st')))
          (run r1 st)
  | Bound => if xorb (word_before st) (word_after st) then [st] else []
  | Bol => match before st with [] => [st] | _ => [] end
  | Eol => if at_end st then [st] else []
  end.

(** The match of [r] starting exactly at the cursor, if any. *)
Definition exec (r : regex) (bef aft : str) : option mstate :=
  hd_error (run r (MState bef aft None)).

Definition width (bef : str) (m : mstate) : nat :=
  length (before m) - length bef.

(** The value [re.findall] reports for a pattern with one group. *)
Definition group1 (m : mstate) : str :=
  match cap m with Some w => w | None => [] end.

(** [re.findall]: the matches from left to right, without overlap.
    [skip] counts the characters of the current match still to pass.
    After a match that reads nothing the search moves on by one character
    (no pattern of the scripts has such a match). *)
Fixpoint findall_from (r : regex) (bef aft : str) (skip : nat) : list str :=
  match skip with
  | S n =>
      match aft with
      | c :: t => findall_from r (c :: bef) t n
      | [] => []
      end
  | O =>
      match exec r bef aft with
      | Some m =>
          group1 m ::
          match aft with
          | c :: t => findall_from r (c :: bef) t (pred (width bef m))
          | [] => []
          end
      | None =>
          match aft with
          | c :: t => findall_from r (c :: bef) t 0
          | [] => []
          end
      end
  end.

Definition findall (r : regex) (text : str) : list str :=
  findall_from r [] text 0.

(** [re.sub]: every match replaced by [repl], the rest copied; after a
    match that reads nothing the next character is copied. *)
Fixpoint sub_from (r : regex) (repl : str) (bef aft : str) (skip : nat)
  : str :=
  match skip with
  | S n =>
      match aft with
      | c :: t => sub_from r repl (c :: bef) t n
      | [] => []
      end
  | O =>
      match exec r bef aft with
      | Some m =>
          repl ++
          match aft with
          | c :: t =>
              match width bef m with
              | S n => sub_from r repl (c :: bef) t n
              | O => c :: sub_from r repl (c :: bef) t 0
              end
          | [] => []
          end
      | None =>
          match aft with
          | c :: t => c :: sub_from r repl (c :: bef) t 0
          | [] => []
          end
      end
  end.

Definition sub (r : regex) (repl : str) (text : str) : str :=
  sub_from r repl [] text 0.

(** [re.search]: is there a match anywhere in the text? *)
Fixpoint search_from (r : regex) (bef aft : str) : bool :=
  match exec r bef aft with
  | Some _ => true
  | None =>
      match aft with
      | c :: t => search_from r (c :: bef) t
      | [] => false
      end
  end.

Definition search (r : regex) (text : str) : bool := search_from r [] text.

(** A literal string, and the same under [re.IGNORECASE]. *)
Definition chr (c : ascii) : regex := Chr (Ascii.eqb c).

Definition chr_i (c : ascii) : regex :=
  Chr (fun x => Ascii.eqb (lower x) (lower c)).

Fixpoint word (s : str) : regex :=
  match s with
  | [] => Eps
  | c :: t => Cat (chr c) (word t)
  end.

Fixpoint word_i (s : str) : regex :=
  match s with
  | [] => Eps
  | c :: t => Cat (chr_i c) (word_i t)
  end.

(** An alternation [a|b|...] of one or more patterns. *)
Fixpoint alts (rs : list regex) : regex :=
  match rs with
  | [] => Chr (fun _ => false)
  | [r] => r
  | r :: rest => Alt r (alts rest)
  end.

(** [\s] *)
Definition ws : regex := Chr is_space.

(** ** Results of operations that can raise *)

Inductive result (A : Type) : Type :=
| Ok (a : A)
| IndexError.

Arguments Ok {A} a.
Arguments IndexError {A}.

Definition bind {A B : Type} (m : result A) (f : A -> result B) : result B :=
  match m with
  | Ok a => f a
  | IndexError => IndexError
  end.

Notation "x <- m ;;; k" := (bind m (fun x => k))
  (at level 62, m at next level, right associativity).

(** [s[i]] *)
Definition index (s : str) (i : nat) : result ascii :=
  match nth_error s i with
  | Some c => Ok c
  | None => IndexError
  end.

(** Truth value of a string: non-empty. *)
Definition truthy (s : str) : bool :=
  match s with [] => false | _ => true end.

(** ** The functional pipeline helpers (both scripts)

    [flatten = lambda lst: list(chain.from_iterable(lst))] *)
Definition flatten (A : Type) (lst : list (list A)) : list A := concat lst.

(** A [dict] with keys only, in insertion order: setting a key that is
    present leaves it where it is. *)
Definition dict_set (d : list str) (k : str) : list str :=
  if mem k d then d else d ++ [k].

(** [unique = lambda lst: list(dict.fromkeys(lst))] *)
Definition unique (lst : list str) : list str := fold_left dict_set lst [].

(** Comparison of strings: code point by code point, a proper prefix
    first. *)
Fixpoint str_leb (a b : str) : bool :=
  match a, b with
  | [], _ => true
  | _ :: _, [] => false
  | x :: a', y :: b' =>
      if Nat.ltb (code x) (code y) then true
      else if Nat.ltb (code y) (code x) then false
      else str_leb a' b'
  end.

(** [sorted]: a stable sort, written as insertion sort. *)
Fixpoint insert (x : str) (l : list str) : list str :=
  match l with
  | [] => [x]
  | y :: l' => if str_leb x y then x :: l else y :: insert x l'
  end.

Fixpoint sorted (l : list str) : list str :=
  match l with
  | [] => []
  | x :: l' => insert x (sorted l')
  end.

(** ** clean_name (the same text in both scripts) *)

(** [r'\s+'] *)
Definition spaces_re : regex := Plus ws.

(** [r'^(Mr\.|Mrs\.|Ms\.|Dr\.|Prof\.|Sir|Dame|Lord|Lady)\s+'], compiled
    with [re.IGNORECASE]. *)
Definition honorifics : list str :=
  map lit ["Mr."; "Mrs."; "Ms."; "Dr."; "Prof."; "Sir"; "Dame"; "Lord";
           "Lady"]%string.

Definition titles : regex :=
  (Bol ;; Group (alts (map word_i honorifics)) ;; Plus ws)%re.

(** [r'\s+(Jr\.|Sr\.|III|II|IV|PhD|MD|Esq\.)$'], compiled with
    [re.IGNORECASE]. *)
Definition suffix_words : list str :=
  map lit ["Jr."; "Sr."; "III"; "II"; "IV"; "PhD"; "MD"; "Esq."]%string.

Definition suffixes : regex :=
  (Plus ws ;; Group (alts (map word_i suffix_words)) ;; Eol)%re.

Definition clean_name (name : str) : str :=
  let name := sub spaces_re (lit " ") (strip name) in
  let name := sub titles [] name in
  let name := sub suffixes [] name in
  name.

(** ** extract_names.py: entities from a language model, loose checks *)

Module ExtractNames.

(** The character set of the [re.search] call: the digits 0-9 and the
    characters at, hash, dollar, percent, caret, ampersand, star, round
    brackets, underscore, plus, equals, square brackets, braces, semicolon,
    colon, double quote (code 34), angle brackets, question mark, slash,
    backslash and bar. *)
Definition special_char (c : ascii) : bool :=
  range "0" "9" c || one_of (lit "@#$%^&*()_+=[]{};:<>?/\|" ++ ["034"]) c.

Definition special : regex := Chr special_char.

Definition is_valid_name (name : str) : bool :=
  if Nat.ltb (length name) 2 then false
  else if negb (one_of name " ") then false
  else if isupper name || islower name then false
  else if search special name then false
  else true.

Section Pipeline.

(** [extract_entities]: the spans that the language model labels PERSON.
    The model is not part of the repository. *)
Variable extract_entities : str -> list str.

(** [extract_names_from_pdf] from the pages that [read_pdf] returns:
    [compose(sorted, unique, filter(is_valid_name), map(clean_name),
    flatten, map(extract_entities))]. *)
Definition extract_names_from_pdf (pages : list str) : list str :=
  sorted (unique (filter is_valid_name (map clean_name
    (flatten (map extract_entities pages))))).

End Pipeline.

End ExtractNames.

(** ** extract_names_simple.py: candidates from patterns, strict checks *)

Module ExtractNamesSimple.

(** [[A-Z][a-z]+(?:\s+[A-Z]\.?)?(?:\s+[A-Z][a-z]+)+], the group of both
    patterns. *)
Definition capital : regex := Chr (range "A" "Z").
Definition small : regex := Chr (range "a" "z").

Definition name_body : regex :=
  (capital ;; Plus small ;;
   Opt (Plus ws ;; capital ;; Opt (chr ".")) ;;
   Plus (Plus ws ;; capital ;; Plus small))%re.

(** [r'\b(...)\b'] *)
Definition name_pattern : regex :=
  (Bound ;; Group name_body ;; Bound)%re.

(** [r'\b(?:Mr\.|Mrs\.|Ms\.|Dr\.|Prof\.|Sir|Dame|Lord|Lady)\s+(...)\b'] *)
Definition title_pattern : regex :=
  (Bound ;; alts (map word honorifics) ;; Plus ws ;;
   Group name_body ;; Bound)%re.

Definition extract_potential_names (text : str) : list str :=
  let matches := findall name_pattern text in
  let title_matches := findall title_pattern text in
  matches ++ title_matches.

Definition false_positives : list str :=
  map lit
    ["United States"; "New York"; "Los Angeles"; "San Francisco";
     "White House"; "Supreme Court"; "Wall Street"; "Main Street";
     "World War"; "Cold War"; "Civil War"; "Great Depression";
     "Federal Reserve"; "State Department"; "Defense Department";
     "Harvard University"; "Yale University"; "Stanford University";
     "Oxford University"; "Cambridge University";
     "The New"; "New York Times"; "Washington Post"; "Associated Press";
     "Republican Party"; "Democratic Party"; "Green Party";
     "Middle East"; "Far East"; "Western Europe"; "Eastern Europe";
     "North America"; "South America"; "Central America";
     "Chapter One"; "Chapter Two"; "Part One"; "Part Two";
     "First World"; "Second World"; "Third World";
     "Old Testament"; "New Testament"]%string.

Definition common_words : list str :=
  map lit ["The"; "And"; "But"; "For"; "With"; "From"; "Into";
           "About"]%string.

(** [all(part[0].isupper() for part in parts
         if part and part[0].isalpha())] *)
Fixpoint all_capitalised (parts : list str) : result bool :=
  match parts with
  | [] => Ok true
  | part :: rest =>
      keep <- (if truthy part
               then c <- index part 0 ;;; Ok (is_alpha c)
               else Ok false) ;;;
      if keep
      then c <- index part 0 ;;;
           if is_upper c then all_capitalised rest else Ok false
      else all_capitalised rest
  end.

(** [is_valid_name], with the exceptions it could raise. *)
Definition is_valid_name_r (name : str) : result bool :=
  if Nat.ltb (length name) 3 then Ok false
  else if negb (one_of name " ") then Ok false
  else
    let parts := split name in
    if Nat.ltb (length parts) 2 || Nat.ltb 4 (length parts) then Ok false
    else
      capitalised <- all_capitalised parts ;;;
      if negb capitalised then Ok false
      else if mem name false_positives then Ok false
      else if forallb (fun part => mem part common_words) parts then Ok false
      else Ok true.

(** [is_valid_name] as the predicate given to [filter]; the validator never
    raises (see [is_valid_name_returns]), so the last case does not occur. *)
Definition is_valid_name (name : str) : bool :=
  match is_valid_name_r name with
  | Ok b => b
  | IndexError => false
  end.

(** [extract_names_from_pdf] from the pages that [read_pdf] returns:
    [compose(sorted, unique, filter(is_valid_name), map(clean_name),
    flatten, map(extract_potential_names))]. *)
Definition extract_names_from_pdf (pages : list str) : list str :=
  sorted (unique (filter is_valid_name (map clean_name
    (flatten (map extract_potential_names pages))))).

End ExtractNamesSimple.


(** ** The pipeline of both scripts, for any generator and validator *)

Definition pipeline (generate : str -> list str) (valid : str -> bool)
  (pages : list str) : list str :=
  sorted (unique (filter valid (map clean_name
    (flatten (map generate pages))))).

(** ** Vocabulary of the properties *)

(** The order of [sorted], and strictly before: [b <= a] fails. *)
Definition str_le (a b : str) : Prop := str_leb a b = true.

Definition str_lt (a b : str) : Prop := str_leb b a = false.

(** The characters a name may contain according to the description of the
    validator: letters, the space, the full stop and the hyphen. *)
Definition name_char (c : ascii) : bool :=
  is_alpha c || one_of (lit " .-") c.

(** The strings a pattern can match, whatever surrounds them (the three
    assertions match the empty string). *)
Inductive matches : regex -> str -> Prop :=
| M_eps : matches Eps []
| M_chr p c : p c = true -> matches (Chr p) [c]
| M_cat r1 r2 w1 w2 :
    matches r1 w1 -> matches r2 w2 -> matches (Cat r1 r2) (w1 ++ w2)
| M_alt_l r1 r2 w : matches r1 w -> matches (Alt r1 r2) w
| M_alt_r r1 r2 w : matches r2 w -> matches (Alt r1 r2) w
| M_plus_one r w : matches r w -> matches (Plus r) w
| M_plus_more r w1 w2 :
    matches r w1 -> matches (Plus r) w2 -> matches (Plus r) (w1 ++ w2)
| M_opt_none r : matches (Opt r) []
| M_opt_some r w : matches r w -> matches (Opt r) w
| M_group r w : matches r w -> matches (Group r) w
| M_bound : matches Bound []
| M_bol : matches Bol []
| M_eol : matches Eol [].

(** Every string that the group of [r] can capture satisfies [P]. *)
Fixpoint captures (P : str -> Prop) (r : regex) : Prop :=
  match r with
  | Group g => forall w, matches g w -> P w
  | Cat r1 r2 | Alt r1 r2 => captures P r1 /\ captures P r2
  | Plus r1 | Opt r1 => captures P r1
  | _ => True
  end.

(** The capture of a state, if set, satisfies [P]. *)
Definition cap_ok (P : str -> Prop) (st : mstate) : Prop :=
  forall w, cap st = Some w -> P w.

(** Every match of [r] goes through its group. *)
Fixpoint sets_group (r : regex) : bool :=
  match r with
  | Group _ => true
  | Cat r1 r2 => sets_group r1 || sets_group r2
  | Alt r1 r2 => sets_group r1 && sets_group r2
  | Plus r1 => sets_group r1
  | _ => false
  end.

(** Every character that [r] can read satisfies [A]. *)
Fixpoint reads_only (A : ascii -> bool) (r : regex) : Prop :=
  match r with
  | Chr p => forall c, p c = true -> A c = true
  | Cat r1 r2 | Alt r1 r2 => reads_only A r1 /\ reads_only A r2
  | Plus r1 | Opt r1 | Group r1 => reads_only A r1
  | _ => True
  end.

(** [st'] is [st] with the cursor moved over [w]. *)
Definition moved (st st' : mstate) (w : str) : Prop :=
  after st = w ++ after st' /\ before st' = rev w ++ before st.

(** The shape of a candidate name. *)
Definition capital_letter (c : ascii) : Prop := range "A" "Z" c = true.

Definition small_letters (s : str) : Prop :=
  s <> [] /\ Forall (fun c => range "a" "z" c = true) s.

Definition whitespace (s : str) : Prop :=
  s <> [] /\ Forall (fun c => is_space c = true) s.

(** A capital followed by one or more small letters. *)
Definition title_case (t : str) : Prop :=
  exists c cs, t = c :: cs /\ capital_letter c /\ small_letters cs.

(** One capital, with or without a full stop. *)
Definition initial (t : str) : Prop :=
  exists c, capital_letter c /\ (t = [c] \/ t = [c; "."]).

(** A part that [split] gives: no whitespace in it. *)
Definition token (t : str) : Prop :=
  t <> [] /\ Forall (fun c => is_space c = false) t.

(** Whitespace and token, several times. *)
Definition glue (l : list (str * str)) : str :=
  concat (map (fun gt => fst gt ++ snd gt) l).

(** A title-case token; then possibly whitespace and an initial; then one
    or more times whitespace and a title-case token.  These tokens are the
    parts that [split] gives. *)
Definition name_shape (w : str) : Prop :=
  exists (first : str) (middle rest : list (str * str)),
    w = first ++ glue middle ++ glue rest /\
    title_case first /\
    length middle <= 1 /\
    Forall (fun gt => whitespace (fst gt) /\ initial (snd gt)) middle /\
    rest <> [] /\
    Forall (fun gt => whitespace (fst gt) /\ title_case (snd gt)) rest /\
    split w = first :: map snd middle ++ map snd rest.

(** The characters of a candidate: the letters A-Z and a-z, whitespace and
    the full stop. *)
Definition candidate_char (c : ascii) : bool :=
  range "A" "Z" c || range "a" "z" c || is_space c || Ascii.eqb c ".".

(** The effect of the first step of clean_name on a stripped string: every
    run of whitespace becomes one space.  [in_run] tells that the previous
    character was whitespace. *)
Fixpoint squeeze (in_run : bool) (s : str) : str :=
  match s with
  | [] => []
  | c :: t =>
      if is_space c
      then if in_run then squeeze true t else " " :: squeeze true t
      else c :: squeeze false t
  end.

(** A string whose only whitespace is single spaces between other
    characters.  [no_space] tells that whitespace may not come next (at the
    start, and after a space). *)
Fixpoint tidy_from (no_space : bool) (s : str) : bool :=
  match s with
  | [] => negb no_space
  | c :: t =>
      if is_space c
      then Ascii.eqb c " " && negb no_space && tidy_from true t
      else tidy_from false t
  end.

Definition tidy (s : str) : Prop := s = [] \/ tidy_from true s = true.

(** The same word, whatever the case of its letters. *)
Definition same_ci (a b : str) : Prop := map lower a = map lower b.

(** The pattern ends with [$]. *)
Fixpoint ends_with_eol (r : regex) : bool :=
  match r with
  | Eol => true
  | Cat _ r2 => ends_with_eol r2
  | _ => false
  end.

(** ** More of the scripts *)

(** [sep.join(parts)] *)
Fixpoint join (sep : str) (parts : list str) : str :=
  match parts with
  | [] => []
  | [a] => a
  | a :: rest => a ++ sep ++ join sep rest
  end.

(** [write_adoc] (the same text in both scripts): the text it writes to
    the output file, ['\n'.join(names)]. *)
Definition write_adoc (names : list str) : str := join [newline] names.

(** [w] occurs in [text] as a run of consecutive characters. *)
Definition substring (w text : str) : Prop :=
  exists pre post, text = pre ++ w ++ post.

(** The text of a match state, and its capture being a piece of it. *)
Definition text_of (st : mstate) : str := rev (before st) ++ after st.

Definition cap_in_text (st : mstate) : Prop :=
  forall w, cap st = Some w -> substring w (text_of st).

(** ** Text files

    A file system is a map from paths to the text of the files.  Text is
    written as it is; on reading in text mode the line ends "\r\n" and "\r"
    are delivered as "\n".  Opening a missing file for reading raises
    FileNotFoundError; other failures of the operating system are left
    out. *)

Definition carriage_return : ascii := "013".

(** The lines of a text as iteration over the open file (or [readlines])
    gives them: each line with its ["\n"], the last one possibly without.
    [cur] is the line being read, most recent character first. *)
Fixpoint file_lines_from (cur : str) (text : str) : list str :=
  match text with
  | [] => match cur with [] => [] | _ => [rev cur] end
  | c :: t =>
      if Ascii.eqb c newline
      then rev (newline :: cur) :: file_lines_from [] t
      else if Ascii.eqb c carriage_return
      then rev (newline :: cur) ::
           file_lines_from []
             match t with
             | c' :: t' => if Ascii.eqb c' newline then t' else t
             | [] => t
             end
      else file_lines_from (c :: cur) t
  end.

Definition file_lines (text : str) : list str := file_lines_from [] text.

Definition files : Type := str -> option str.

Definition write_file (fs : files) (path text : str) : files :=
  fun p => if str_eqb p path then Some text else fs p.

Inductive outcome (A : Type) : Type :=
| Returned (a : A) (fs : files)
| FileNotFoundError (fs : files).

Arguments Returned {A} a fs.
Arguments FileNotFoundError {A} fs.

Definition io (A : Type) : Type := files -> outcome A.

Definition io_ret {A : Type} (a : A) : io A := fun fs => Returned a fs.

Definition io_bind {A B : Type} (m : io A) (f : A -> io B) : io B :=
  fun fs =>
    match m fs with
    | Returned a fs' => f a fs'
    | FileNotFoundError fs' => FileNotFoundError fs'
    end.

Notation "x <-- m ;;; k" := (io_bind m (fun x => k))
  (at level 62, m at next level, right associativity).

(** [open(path, 'r')] and reading the whole text. *)
Definition read_text (path : str) : io str :=
  fun fs =>
    match fs path with
    | Some text => Returned text fs
    | None => FileNotFoundError fs
    end.

(** [open(path, 'w')] and writing [text]. *)
Definition write_text (path text : str) : io unit :=
  fun fs => Returned tt (write_file fs path text).

(** A [set] of strings, as the list of its elements, each once.  The
    scripts only test membership, take its size, or sort its elements. *)
Definition set_add (s : list str) (x : str) : list str :=
  if mem x s then s else s ++ [x].

Definition set_of (items : list str) : list str := fold_left set_add items [].

(** [str.lower()] *)
Definition lower_str (s : str) : str := map lower s.

(** [str(n)] for a natural number. *)
Definition dec (n : nat) : str :=
  list_ascii_of_string (NilEmpty.string_of_uint (Nat.to_uint n)).

Definition is_prefix (p s : str) : bool :=
  str_eqb (firstn (length p) s) p.

(** [s.replace(old, new)] for a non-empty [old]: the occurrences of [old]
    from left to right, without overlap.  [skip] counts the characters of
    the current occurrence still to pass. *)
Fixpoint replace_from (old new : str) (s : str) (skip : nat) : str :=
  match s with
  | [] => []
  | c :: t =>
      match skip with
      | S n => replace_from old new t n
      | O =>
          if is_prefix old s
          then new ++ replace_from old new t (pred (length old))
          else c :: replace_from old new t 0
      end
  end.

(** With an empty [old], [new] is put before every character and at the
    end. *)
Definition replace (old new : str) (s : str) : str :=
  match old with
  | [] => new ++ flat_map (fun c => c :: new) s
  | _ => replace_from old new s 0
  end.

(** ** deduplicate_names.py *)

Module DeduplicateNames.

(** [[line.strip() for line in f if line.strip()]] *)
Definition lines_of (text : str) : list str :=
  map strip (filter (fun line => truthy (strip line)) (file_lines text)).

Definition read_lines (filepath : str) : io (list str) :=
  text <-- read_text filepath ;;; io_ret (lines_of text).

(** The text that [write_lines] writes: the lines joined by ["\n"], and a
    last ["\n"] if there are lines. *)
Definition lines_text (lines : list str) : str :=
  join [newline] lines ++ match lines with [] => [] | _ => [newline] end.

Definition write_lines (filepath : str) (lines : list str) : io unit :=
  write_text filepath (lines_text lines).

Definition to_set (items : list str) : list str := set_of items.

Definition not_in_set (exclusion_set : list str) (item : str) : bool :=
  negb (mem item exclusion_set).

Definition in_set (inclusion_set : list str) (item : str) : bool :=
  mem item inclusion_set.

Definition get_unique_lines (file1 file2 : str) : io (list str) :=
  names <-- read_lines file1 ;;;
  let names_to_exclude := to_set names in
  lines <-- read_lines file2 ;;;
  io_ret (filter (not_in_set names_to_exclude) lines).

Definition get_common_lines (file1 file2 : str) : io (list str) :=
  names <-- read_lines file1 ;;;
  let names_from_file1 := to_set names in
  lines <-- read_lines file2 ;;;
  io_ret (filter (in_set names_from_file1) lines).

(** [output_file or file2]: [None] and the empty string give [file2]. *)
Definition or_default (output_file : option str) (file2 : str) : str :=
  match output_file with
  | Some (c :: p) => c :: p
  | _ => file2
  end.

Definition deduplicate_files (file1 file2 : str) (output_file : option str)
  : io (Z * Z * Z) :=
  let output_file := or_default output_file file2 in
  original_lines <-- read_lines file2 ;;;
  unique_lines <-- get_unique_lines file1 file2 ;;;
  _ <-- write_lines output_file unique_lines ;;;
  io_ret (Z.of_nat (length original_lines),
          Z.of_nat (length unique_lines),
          (Z.of_nat (length original_lines)
           - Z.of_nat (length unique_lines))%Z).

Definition case_insensitive_deduplicate (file1 file2 : str)
  (output_file : option str) : io (Z * Z * Z) :=
  let output_file := or_default output_file file2 in
  names <-- read_lines file1 ;;;
  let names_to_exclude := set_of (map lower_str names) in
  original_lines <-- read_lines file2 ;;;
  let unique_lines :=
    filter (fun line => negb (mem (lower_str line) names_to_exclude))
           original_lines in
  _ <-- write_lines output_file unique_lines ;;;
  io_ret (Z.of_nat (length original_lines),
          Z.of_nat (length unique_lines),
          (Z.of_nat (length original_lines)
           - Z.of_nat (length unique_lines))%Z).

(** [create_filter(predicate)], applied to two paths. *)
Definition create_filter (predicate : str -> bool) (file1 file2 : str)
  : io (list str) :=
  lines <-- read_lines file2 ;;; io_ret (filter predicate lines).

End DeduplicateNames.

(** ** remove_duplicates.py *)

Module RemoveDuplicates.

(** [read_lines] and [write_lines] have the text of those of
    deduplicate_names.py, [write_lines] with its arguments in the other
    order. *)
Definition read_lines (filepath : str) : io (list str) :=
  text <-- read_text filepath ;;; io_ret (DeduplicateNames.lines_of text).

Definition write_lines (lines : list str) (filepath : str) : io unit :=
  write_text filepath (DeduplicateNames.lines_text lines).

Definition lines_to_set (lines : list str) : list str := set_of lines.

Definition filter_not_in_set (name_set : list str) (line : str) : bool :=
  negb (mem line name_set).

(** [remove_duplicates]: file2 is rewritten without the lines of file1;
    the second number returned is the number of lines of file2 read after
    that. *)
Definition remove_duplicates (file1_path file2_path : str)
  : io (nat * nat) :=
  lines1 <-- read_lines file1_path ;;;
  let file1_names := lines_to_set lines1 in
  lines2 <-- read_lines file2_path ;;;
  _ <-- write_lines (filter (filter_not_in_set file1_names) lines2)
                    file2_path ;;;
  original_lines <-- read_lines file2_path ;;;
  io_ret (length file1_names, length original_lines).

End RemoveDuplicates.

(** ** sort_cypher.py *)

Module SortCypher.

(** [[line.strip() for line in f.readlines()]] *)
Definition read_cypher_lines (text : str) : list str :=
  map strip (file_lines text).

(** The set is read in the order in which its elements were added; the
    order in which Python gives them is not fixed, and [sorted] makes the
    result independent of it. *)
Definition remove_duplicates_and_sort (lines : list str) : list str :=
  let unique_lines :=
    fold_left (fun s line =>
                 if truthy (strip line) then set_add s (strip line) else s)
              lines [] in
  sorted unique_lines.

(** The text that [write_sorted_cypher] writes: [line + '\n'] for each
    line. *)
Definition sorted_cypher_text (lines : list str) : str :=
  flat_map (fun line => line ++ [newline]) lines.

End SortCypher.

(** ** Substitution by a function, and dicts *)

(** [re.sub] with a function as the replacement: the function is given the
    text of each match, [match.group(0)]. *)
Fixpoint sub_with_from (r : regex) (repl : str -> str) (bef aft : str)
  (skip : nat) : str :=
  match skip with
  | S n =>
      match aft with
      | c :: t => sub_with_from r repl (c :: bef) t n
      | [] => []
      end
  | O =>
      match exec r bef aft with
      | Some m =>
          repl (firstn (width bef m) aft) ++
          match aft with
          | c :: t =>
              match width bef m with
              | S n => sub_with_from r repl (c :: bef) t n
              | O => c :: sub_with_from r repl (c :: bef) t 0
              end
          | [] => []
          end
      | None =>
          match aft with
          | c :: t => c :: sub_with_from r repl (c :: bef) t 0
          | [] => []
          end
      end
  end.

Definition sub_with (r : regex) (repl : str -> str) (text : str) : str :=
  sub_with_from r repl [] text 0.

(** A dict from strings to strings: its items in the order of insertion.
    [d[k] = v] replaces the value of a key that is present. *)
Definition dict : Type := list (str * str).

Fixpoint setitem (d : dict) (k v : str) : dict :=
  match d with
  | [] => [(k, v)]
  | (k', v') :: rest =>
      if str_eqb k' k then (k', v) :: rest else (k', v') :: setitem rest k v
  end.

(** [d.get(k, default)] *)
Fixpoint get (d : dict) (k default : str) : str :=
  match d with
  | [] => default
  | (k', v') :: rest => if str_eqb k' k then v' else get rest k default
  end.

(** ** cr.py and conn.py *)

Module Cr.

(** [read_lines_from_file]: [[line.strip() for line in f.readlines()]] *)
Definition lines_from_text (text : str) : list str :=
  map strip (file_lines text).

Definition template : str :=
  lit "MERGE (p{m}:Person { Id: " ++ "034" :: lit "{m}" ++ "034"
  :: lit ", Name: " ++ "034" :: lit "{n}" ++ "034" :: lit " });".

(** The loop of [generate_cypher_statements], with its counter [m]. *)
Fixpoint statements_from (lines : list str) (m : nat) : list str :=
  match lines with
  | [] => []
  | line :: rest =>
      if truthy (strip line)
      then replace (lit "{n}") (strip line)
             (replace (lit "{m}") (dec m) template)
           :: statements_from rest (S m)
      else statements_from rest m
  end.

Definition generate_cypher_statements (lines : list str) : list str :=
  statements_from lines 1.

(** The key [f"{{{i}}}"]: the number in braces. *)
Definition key (i : nat) : str := "{" :: dec i ++ ["}"].

(** The loop of [create_replacement_map] over [enumerate(lines)]. *)
Fixpoint replacement_map_from (lines : list str) (i : nat)
  (replacement_map : dict) : dict :=
  match lines with
  | [] => replacement_map
  | line :: rest =>
      replacement_map_from rest (S i)
        (if truthy line
         then setitem (setitem replacement_map (key i) line)
                      (key (S i)) line
         else replacement_map)
  end.

Definition create_replacement_map (lines : list str) : dict :=
  replacement_map_from lines 0 [].

(** [\d]: in a text of code points below 256 the decimal digits are
    0 to 9. *)
Definition digit : ascii -> bool := range "0" "9".

(** [r'\{\d+\}'] *)
Definition pattern : regex := (chr "{" ;; Plus (Chr digit) ;; chr "}")%re.

Definition replace_expressions (text : str) (replacement_map : dict) : str :=
  sub_with pattern
           (fun matched => get replacement_map matched matched) text.

End Cr.

Module Conn.

Definition template : str :=
  lit "MATCH (r:Person {Id: '48'}) OPTIONAL MATCH (s:Person {Id: '{m}'}) WITH r, s  WHERE s IS NOT NULL MERGE (r)-[:CONNECTED_WITH]->(s);".

(** The loop of [generate_connection_statements], with its counter [m]. *)
Fixpoint statements_from (lines : list str) (m : nat) : list str :=
  match lines with
  | [] => []
  | line :: rest =>
      if truthy (strip line)
      then replace (lit "{m}") (dec m) template :: statements_from rest (S m)
      else statements_from rest m
  end.

Definition generate_connection_statements (lines : list str) : list str :=
  statements_from lines 1.

End Conn.

(** ** Vocabulary of the further properties *)

(** A character that does not end a line of a text file. *)
Definition line_char (c : ascii) : bool :=
  negb (Ascii.eqb c newline) && negb (Ascii.eqb c carriage_return).

(** A line as [read_lines] returns them: not empty, without whitespace at
    its ends, and without a line end inside. *)
Definition plain_line (l : str) : Prop :=
  l <> [] /\ strip l = l /\ Forall (fun c => line_char c = true) l.

(** The statement of cr.py for the person number [m] named [name], and
    the statement of conn.py for the person number [m]. *)
Definition cypher_statement (m : nat) (name : str) : str :=
  lit "MERGE (p" ++ dec m ++ lit ":Person { Id: " ++ "034" :: dec m
  ++ "034" :: lit ", Name: " ++ "034" :: name ++ "034" :: lit " });".

Definition connection_statement (m : nat) : str :=
  lit "MATCH (r:Person {Id: '48'}) OPTIONAL MATCH (s:Person {Id: '"
  ++ dec m
  ++ lit "'}) WITH r, s  WHERE s IS NOT NULL MERGE (r)-[:CONNECTED_WITH]->(s);".

(** ** The composition helpers of deduplicate_names.py

    [compose], [pipe] and [op_compose], for functions from a type to
    itself (the scripts also compose functions of different types). *)

Module Functional.

Section Helpers.

Variable A : Type.

(** [reduce(lambda f, g: lambda x: f(g(x)), funcs, lambda x: x)] *)
Definition compose (funcs : list (A -> A)) : A -> A :=
  fold_left (fun f g => fun x => f (g x)) funcs (fun x => x).

(** [reduce(lambda f, g: lambda x: g(f(x)), funcs, lambda x: x)] *)
Definition pipe (funcs : list (A -> A)) : A -> A :=
  fold_left (fun f g => fun x => g (f x)) funcs (fun x => x).

(** [inner(arg) = reduce(lambda x, f: f(x), funcs, arg)] *)
Definition op_compose (funcs : list (A -> A)) : A -> A :=
  fun arg => fold_left (fun x f => f x) funcs arg.

End Helpers.

End Functional.

(** ** student_services.py *)

Module StudentServices.

Inductive StudentLevel : Type := UNDERGRADUATE | GRADUATE | DOCTORAL.

Inductive StudentStatus : Type := FULL_TIME | PART_TIME | INACTIVE.

Definition level_eqb (a b : StudentLevel) : bool :=
  match a, b with
  | UNDERGRADUATE, UNDERGRADUATE | GRADUATE, GRADUATE
  | DOCTORAL, DOCTORAL => true
  | _, _ => false
  end.

Definition status_eqb (a b : StudentStatus) : bool :=
  match a, b with
  | FULL_TIME, FULL_TIME | PART_TIME, PART_TIME | INACTIVE, INACTIVE => true
  | _, _ => false
  end.

Section Services.

(** The floating-point numbers of Python and the test [gpa >= 3.5] are
    taken as given. *)
Variable float : Type.
Variable at_least_3_5 : float -> bool.

Record Student : Type := {
  student_id : str;
  level : StudentLevel;
  status : StudentStatus;
  gpa : float;
  credit_hours : Z;
  is_international : bool;
  has_disabilities : bool;
  is_athlete : bool
}.

Definition authorize_campus_services (student : Student) : list str :=
  let services : list str := [] in
  let services :=
    if negb (status_eqb (status student) INACTIVE)
    then services ++ map lit ["library_access"; "student_portal";
                              "email_account"; "wifi_access";
                              "health_services"; "counseling_services";
                              "career_services"]%string
    else services in
  let services :=
    if status_eqb (status student) FULL_TIME
    then services ++ map lit ["gym_membership"; "tutoring_center"]%string
    else services in
  let services :=
    if level_eqb (level student) UNDERGRADUATE
    then
      let services := services ++ [lit "academic_support"] in
      if at_least_3_5 (gpa student)
      then services ++ [lit "honors_program"]
      else services
    else if existsb (level_eqb (level student)) [GRADUATE; DOCTORAL]
    then
      let services :=
        services ++ map lit ["research_databases";
                             "graduate_resources"]%string in
      if level_eqb (level student) DOCTORAL
      then services ++ [lit "dissertation_support"]
      else services
    else services in
  let services :=
    if is_international student
    then services ++ [lit "international_student_services"]
    else services in
  let services :=
    if has_disabilities student
    then services ++ [lit "disability_services"]
    else services in
  let services :=
    if is_athlete student
    then services ++ [lit "athletic_facilities"]
    else services in
  sorted (set_of services).

End Services.

End StudentServices.

(** * Properties *)

(** ** Order of strings *)

Lemma code_inj (x y : ascii) : code x = code y -> x = y.
Proof.
  unfold code. intros H.
  rewrite <- (ascii_nat_embedding x), <- (ascii_nat_embedding y).
  now rewrite H.
Qed.

Lemma str_leb_refl (a : str) : str_leb a a = true.
Proof.
  induction a as [|x a IH]; simpl; trivial.
  now rewrite Nat.ltb_irrefl.
Qed.

Lemma str_leb_total (a b : str) : str_leb a b = false -> str_leb b a = true.
Proof.
  revert b. induction a as [|x a IH]; intros [|y b]; simpl; try discriminate;
    trivial.
  destruct (Nat.ltb_spec (code x) (code y)); [discriminate|].
  destruct (Nat.ltb_spec (code y) (code x)); trivial.
  apply IH.
Qed.

Lemma str_leb_antisym (a b : str) :
  str_leb a b = true -> str_leb b a = true -> a = b.
Proof.
  revert b. induction a as [|x a IH]; intros [|y b]; simpl; try discriminate;
    trivial.
  destruct (Nat.ltb_spec (code x) (code y)) as [Hxy|Hxy];
    destruct (Nat.ltb_spec (code y) (code x)) as [Hyx|Hyx];
    try discriminate; try lia.
  intros H1 H2. f_equal; [apply code_inj; lia | now apply IH].
Qed.

Lemma str_leb_trans (a b c : str) :
  str_leb a b = true -> str_leb b c = true -> str_leb a c = true.
Proof.
  revert b c. induction a as [|x a IH]; intros [|y b] [|z c]; simpl;
    try discriminate; trivial.
  destruct (Nat.ltb_spec (code x) (code y));
    destruct (Nat.ltb_spec (code y) (code x));
    destruct (Nat.ltb_spec (code y) (code z));
    destruct (Nat.ltb_spec (code z) (code y));
    destruct (Nat.ltb_spec (code x) (code z));
    destruct (Nat.ltb_spec (code z) (code x));
    try discriminate; trivial; try lia.
  apply IH.
Qed.

Lemma str_eqb_eq (a b : str) : str_eqb a b = true <-> a = b.
Proof.
  unfold str_eqb. destruct (list_eq_dec ascii_dec a b); split; congruence.
Qed.

Lemma mem_In (x : str) (l : list str) : mem x l = true <-> In x l.
Proof.
  unfold mem. rewrite existsb_exists. split.
  - intros (y & Hy & E). apply str_eqb_eq in E. now subst.
  - intros H. exists x. split; trivial. now apply str_eqb_eq.
Qed.

(** ** sorted *)

Lemma insert_perm (x : str) (l : list str) : Permutation (x :: l) (insert x l).
Proof.
  induction l as [|y l IH]; simpl; trivial.
  destruct (str_leb x y); trivial.
  rewrite perm_swap. now constructor.
Qed.

Lemma sorted_perm (l : list str) : Permutation l (sorted l).
Proof.
  induction l as [|x l IH]; simpl; trivial.
  rewrite <- insert_perm. now constructor.
Qed.

Lemma insert_ordered (x : str) (l : list str) :
  StronglySorted str_le l -> StronglySorted str_le (insert x l).
Proof.
  induction 1 as [|y l Hl IH Hy]; simpl.
  - repeat constructor.
  - destruct (str_leb x y) eqn:E.
    + constructor; [now constructor|].
      constructor; trivial.
      eapply Forall_impl; [|exact Hy].
      intros z Hz. exact (str_leb_trans _ _ _ E Hz).
    + constructor; trivial.
      apply (Permutation_Forall (insert_perm x l)).
      constructor; trivial. now apply str_leb_total.
Qed.

Lemma sorted_ordered (l : list str) : StronglySorted str_le (sorted l).
Proof.
  induction l as [|x l IH]; simpl; [constructor | now apply insert_ordered].
Qed.

(** Two ordered lists with the same elements are the same list. *)
Lemma ordered_perm_eq (l1 l2 : list str) :
  StronglySorted str_le l1 -> StronglySorted str_le l2 ->
  Permutation l1 l2 -> l1 = l2.
Proof.
  intros H1. revert l2.
  induction H1 as [|x l1 Hl1 IH Hx]; intros l2 H2 HP.
  - now apply Permutation_nil in HP.
  - destruct H2 as [|y l2 Hl2 Hy].
    + symmetry in HP. now apply Permutation_nil in HP.
    + assert (x = y) as ->.
      { assert (Hin1 : In x (y :: l2))
          by (apply (Permutation_in _ HP); now left).
        assert (Hin2 : In y (x :: l1))
          by (apply (Permutation_in _ (Permutation_sym HP)); now left).
        destruct Hin1 as [->|Hin1]; trivial.
        destruct Hin2 as [->|Hin2]; trivial.
        rewrite Forall_forall in Hx, Hy.
        apply str_leb_antisym; [apply Hx | apply Hy]; trivial. }
      f_equal. apply IH; trivial.
      now apply Permutation_cons_inv in HP.
Qed.

Lemma sorted_perm_eq (l1 l2 : list str) :
  Permutation l1 l2 -> sorted l1 = sorted l2.
Proof.
  intros HP. apply ordered_perm_eq; try apply sorted_ordered.
  now rewrite <- !sorted_perm.
Qed.

(** An ordered list without repetition is strictly increasing. *)
Lemma ordered_nodup_strict (l : list str) :
  StronglySorted str_le l -> NoDup l -> StronglySorted str_lt l.
Proof.
  induction 1 as [|x l Hl IH Hx]; intros HN; [constructor|].
  inversion HN as [|? ? Hnotin HN']; subst.
  constructor; [now apply IH|].
  rewrite Forall_forall in *. intros y Hy. unfold str_lt.
  destruct (str_leb y x) eqn:E; trivial.
  exfalso. apply Hnotin.
  now rewrite (str_leb_antisym x y (Hx y Hy) E).
Qed.

(** ** unique *)

Lemma dict_set_In (d : list str) (k x : str) :
  In x (dict_set d k) <-> In x d \/ x = k.
Proof.
  unfold dict_set. destruct (mem k d) eqn:E.
  - apply mem_In in E. split; [now left|]. intros [H | ->]; trivial.
  - rewrite in_app_iff. simpl. intuition.
Qed.

Lemma dict_set_NoDup (d : list str) (k : str) :
  NoDup d -> NoDup (dict_set d k).
Proof.
  unfold dict_set. intros H. destruct (mem k d) eqn:E; trivial.
  apply NoDup_app; trivial.
  - repeat constructor. simpl. tauto.
  - intros x Hx [<- | []].
    apply mem_In in Hx. congruence.
Qed.

Lemma fromkeys_In (lst d : list str) (x : str) :
  In x (fold_left dict_set lst d) <-> In x d \/ In x lst.
Proof.
  revert d. induction lst as [|k lst IH]; intros d; simpl; [tauto|].
  rewrite IH, dict_set_In. intuition.
Qed.

Lemma fromkeys_NoDup (lst d : list str) :
  NoDup d -> NoDup (fold_left dict_set lst d).
Proof.
  revert d. induction lst as [|k lst IH]; intros d H; simpl; trivial.
  now apply IH, dict_set_NoDup.
Qed.

Lemma unique_In (lst : list str) (x : str) : In x (unique lst) <-> In x lst.
Proof. unfold unique. rewrite fromkeys_In. simpl. tauto. Qed.

Lemma unique_NoDup (lst : list str) : NoDup (unique lst).
Proof. apply fromkeys_NoDup. constructor. Qed.

Lemma unique_perm (l1 l2 : list str) :
  Permutation l1 l2 -> Permutation (unique l1) (unique l2).
Proof.
  intros HP. apply NoDup_Permutation; try apply unique_NoDup.
  intros x. rewrite !unique_In.
  split; apply Permutation_in; [trivial | now symmetry].
Qed.

(** ** The pipeline *)

Lemma filter_perm (A : Type) (f : A -> bool) (l1 l2 : list A) :
  Permutation l1 l2 -> Permutation (filter f l1) (filter f l2).
Proof.
  induction 1 as [|x l1 l2 HP IH|x y l|l1 l2 l3 H12 IH12 H23 IH23]; simpl.
  - constructor.
  - destruct (f x); [now constructor | trivial].
  - destruct (f x), (f y); try reflexivity. apply perm_swap.
  - now transitivity (filter f l2).
Qed.

Section Pipeline.

Variable generate : str -> list str.
Variable valid : str -> bool.

Lemma pipeline_In (pages : list str) (x : str) :
  In x (pipeline generate valid pages) <->
  valid x = true /\
  exists page c, In page pages /\ In c (generate page) /\ x = clean_name c.
Proof.
  unfold pipeline, flatten.
  split.
  - intros H. apply (Permutation_in _ (Permutation_sym (sorted_perm _))) in H.
    apply unique_In, filter_In in H. destruct H as [H Hv]. split; trivial.
    apply in_map_iff in H. destruct H as (c & <- & Hc).
    apply in_concat in Hc. destruct Hc as (cs & Hcs & Hc).
    apply in_map_iff in Hcs. destruct Hcs as (page & <- & Hpage).
    now exists page, c.
  - intros (Hv & page & c & Hpage & Hc & ->).
    apply (Permutation_in _ (sorted_perm _)).
    apply unique_In, filter_In. split; trivial.
    apply in_map. apply in_concat. exists (generate page). split; trivial.
    now apply in_map.
Qed.

Lemma pipeline_NoDup (pages : list str) :
  NoDup (pipeline generate valid pages).
Proof.
  unfold pipeline.
  apply (Permutation_NoDup (sorted_perm _)), unique_NoDup.
Qed.

Lemma pipeline_ordered (pages : list str) :
  StronglySorted str_le (pipeline generate valid pages).
Proof. apply sorted_ordered. Qed.

Lemma pipeline_increasing (pages : list str) :
  StronglySorted str_lt (pipeline generate valid pages).
Proof.
  apply ordered_nodup_strict; [apply pipeline_ordered | apply pipeline_NoDup].
Qed.

Lemma pipeline_valid (pages : list str) :
  Forall (fun x => valid x = true) (pipeline generate valid pages).
Proof.
  apply Forall_forall. intros x Hx. now apply pipeline_In in Hx.
Qed.

Lemma pipeline_perm (pages pages' : list str) :
  Permutation pages pages' ->
  pipeline generate valid pages = pipeline generate valid pages'.
Proof.
  intros HP. unfold pipeline, flatten.
  apply sorted_perm_eq, unique_perm, filter_perm, Permutation_map.
  rewrite <- !flat_map_concat_map.
  now apply Permutation_flat_map.
Qed.

End Pipeline.

Lemma loose_is_pipeline (extract_entities : str -> list str) :
  ExtractNames.extract_names_from_pdf extract_entities =
  pipeline extract_entities ExtractNames.is_valid_name.
Proof. reflexivity. Qed.

Lemma strict_is_pipeline :
  ExtractNamesSimple.extract_names_from_pdf =
  pipeline ExtractNamesSimple.extract_potential_names
           ExtractNamesSimple.is_valid_name.
Proof. reflexivity. Qed.

(** C5. Scenario A: the pattern script on the single page
    "Dr. Jane A. Smith visited the White House." returns exactly
    the list with the one name "Jane A. Smith". *)
Theorem scenario_A :
  ExtractNamesSimple.extract_names_from_pdf
    [lit "Dr. Jane A. Smith visited the White House."]
  = [lit "Jane A. Smith"].
Proof. vm_compute. reflexivity. Qed.

(** C6. For every input the result of either script has no repeated
    element (equality of strings, the only policy of the code) and is in
    non-decreasing order of code points, hence strictly increasing. *)
Theorem result_unique_and_ordered
  (extract_entities : str -> list str) (pages : list str) :
  let loose := ExtractNames.extract_names_from_pdf extract_entities pages in
  let strict := ExtractNamesSimple.extract_names_from_pdf pages in
  (NoDup loose /\ StronglySorted str_le loose /\ StronglySorted str_lt loose)
  /\
  (NoDup strict /\ StronglySorted str_le strict
   /\ StronglySorted str_lt strict).
Proof.
  cbv zeta. rewrite loose_is_pipeline, strict_is_pipeline.
  repeat split;
    auto using pipeline_NoDup, pipeline_ordered, pipeline_increasing.
Qed.

(** C7. Every element of the result of either script passes that script's
    is_valid_name, and a string that fails it is not in the result. *)
Theorem result_passes_validator
  (extract_entities : str -> list str) (pages : list str) :
  let loose := ExtractNames.extract_names_from_pdf extract_entities pages in
  let strict := ExtractNamesSimple.extract_names_from_pdf pages in
  (Forall (fun x => ExtractNames.is_valid_name x = true) loose /\
   Forall (fun x => ExtractNamesSimple.is_valid_name x = true) strict) /\
  (forall x, ExtractNames.is_valid_name x = false -> ~ In x loose) /\
  (forall x, ExtractNamesSimple.is_valid_name x = false -> ~ In x strict).
Proof.
  cbv zeta. rewrite loose_is_pipeline, strict_is_pipeline.
  repeat split; try apply pipeline_valid.
  - intros x Hx Hin. apply pipeline_In in Hin. destruct Hin. congruence.
  - intros x Hx Hin. apply pipeline_In in Hin. destruct Hin. congruence.
Qed.

Lemma result_passes_validator_witness :
  ~ In (lit "White House")
       (ExtractNamesSimple.extract_names_from_pdf
          [lit "Dr. Jane A. Smith visited the White House."]).
Proof.
  apply (result_passes_validator (fun _ => [])
           [lit "Dr. Jane A. Smith visited the White House."]).
  vm_compute. reflexivity.
Defined.

(** C8. The result does not depend on the order of the pages: a
    permutation of the pages gives the same result, for either script. *)
Theorem result_independent_of_page_order
  (extract_entities : str -> list str) (pages pages' : list str) :
  Permutation pages pages' ->
  ExtractNames.extract_names_from_pdf extract_entities pages =
  ExtractNames.extract_names_from_pdf extract_entities pages' /\
  ExtractNamesSimple.extract_names_from_pdf pages =
  ExtractNamesSimple.extract_names_from_pdf pages'.
Proof.
  intros HP. rewrite loose_is_pipeline, strict_is_pipeline.
  split; now apply pipeline_perm.
Qed.

Lemma result_independent_of_page_order_witness :
  ExtractNamesSimple.extract_names_from_pdf
    [lit "Mary Jane Doe appears here."; lit "Dr. Jane A. Smith was there."]
  = ExtractNamesSimple.extract_names_from_pdf
    [lit "Dr. Jane A. Smith was there."; lit "Mary Jane Doe appears here."].
Proof.
  apply (result_independent_of_page_order (fun _ => [])
           (pages := [lit "Mary Jane Doe appears here.";
                      lit "Dr. Jane A. Smith was there."])).
  apply perm_swap.
Defined.

(** ** The validators *)

Lemma exec_Chr (p : ascii -> bool) (bef aft : str) :
  exec (Chr p) bef aft =
  match aft with
  | c :: t => if p c then Some (MState (c :: bef) t None) else None
  | [] => None
  end.
Proof.
  unfold exec. simpl. destruct aft as [|c t]; trivial. now destruct (p c).
Qed.

Lemma search_Chr (p : ascii -> bool) (bef text : str) :
  search_from (Chr p) bef text = existsb p text.
Proof.
  revert bef.
  induction text as [|c t IH]; intros bef; cbn [search_from existsb];
    rewrite exec_Chr; trivial.
  destruct (p c); simpl; trivial.
Qed.

Lemma split_from_nonempty (cur s : str) :
  Forall (fun part => part <> []) (split_from cur s).
Proof.
  assert (Hrev : forall c (l : str), rev (c :: l) <> []).
  { intros c l H. apply (f_equal (@length _)) in H.
    rewrite length_rev in H. discriminate. }
  revert cur. induction s as [|c t IH]; intros cur; simpl.
  - destruct cur; repeat constructor. apply Hrev.
  - destruct (is_space c); [|apply IH].
    destruct cur; [apply IH|]. constructor; [apply Hrev | apply IH].
Qed.

Lemma all_capitalised_returns (parts : list str) :
  exists b, ExtractNamesSimple.all_capitalised parts = Ok b.
Proof.
  induction parts as [|part rest IH]; simpl; [now exists true|].
  destruct part as [|c part]; simpl; trivial.
  destruct (is_alpha c); simpl; trivial.
  destruct (is_upper c); trivial. now exists false.
Qed.

Lemma is_valid_name_returns (name : str) :
  exists b, ExtractNamesSimple.is_valid_name_r name = Ok b.
Proof.
  unfold ExtractNamesSimple.is_valid_name_r.
  destruct (Nat.ltb _ 3); [now exists false|].
  destruct (negb _); [now exists false|].
  destruct (_ || _); [now exists false|].
  destruct (all_capitalised_returns (split name)) as [b ->].
  destruct b; cbn [bind negb]; [|now exists false].
  destruct (mem name ExtractNamesSimple.false_positives);
    [now exists false|].
  match goal with |- context [forallb ?f ?l] => destruct (forallb f l) end;
    [now exists false | now exists true].
Qed.

(** C10. Both validators return a boolean on every string and never raise.
    In the strict one the test of the first character of each part returns
    for every list of parts, empty parts included, and the parts that
    [split] gives are never empty. *)
Theorem validators_total (name : str) :
  (ExtractNames.is_valid_name name = true
   \/ ExtractNames.is_valid_name name = false) /\
  (exists b, ExtractNamesSimple.is_valid_name_r name = Ok b) /\
  (forall parts, exists b, ExtractNamesSimple.all_capitalised parts = Ok b) /\
  Forall (fun part => part <> []) (split name).
Proof.
  repeat split.
  - destruct (ExtractNames.is_valid_name name); auto.
  - apply is_valid_name_returns.
  - apply all_capitalised_returns.
  - apply split_from_nonempty.
Qed.

(** C1, as stated, fails: a digit passes the strict validator, which has no
    rule on characters, and a comma passes the loose one. *)
Lemma digit_passes_strict_and_comma_passes_loose :
  (existsb (fun c => negb (name_char c)) (lit "J0hn Smith") = true /\
   ExtractNamesSimple.is_valid_name (lit "J0hn Smith") = true) /\
  (existsb (fun c => negb (name_char c)) (lit "John, Smith") = true /\
   ExtractNames.is_valid_name (lit "John, Smith") = true).
Proof. vm_compute. repeat split. Qed.

(** C1, amended. The loose validator rejects every string that contains a
    digit 0-9 or one of the characters of its set. *)
Theorem loose_rejects_special_characters (name : str) (c : ascii) :
  In c name -> ExtractNames.special_char c = true ->
  ExtractNames.is_valid_name name = false.
Proof.
  intros Hin Hc. unfold ExtractNames.is_valid_name.
  destruct (Nat.ltb _ 2); trivial.
  destruct (negb _); trivial.
  destruct (_ || _); trivial.
  unfold search, ExtractNames.special. rewrite search_Chr.
  replace (existsb _ name) with true; trivial.
  symmetry. apply existsb_exists. now exists c.
Qed.

Lemma loose_rejects_special_characters_witness :
  ExtractNames.is_valid_name (lit "John Sm1th") = false.
Proof.
  apply (@loose_rejects_special_characters (lit "John Sm1th") "1");
    [simpl; tauto | reflexivity].
Defined.

(** ** The matcher *)

Lemma iterate_eq (step : mstate -> list mstate) (fuel : nat) (st : mstate) :
  iterate step fuel st =
  flat_map (fun st' =>
              (if progress st st'
               then match fuel with
                    | S f => iterate step f st'
                    | O => []
                    end
               else []) ++ [st'])
           (step st).
Proof. destruct fuel; reflexivity. Qed.

Lemma flat_map_ext_on (A B : Type) (f g : A -> list B) (l : list A) :
  (forall a, In a l -> f a = g a) -> flat_map f l = flat_map g l.
Proof.
  induction l as [|a l IH]; intros H; simpl; trivial.
  rewrite H by now left. f_equal. apply IH. intros; apply H. now right.
Qed.

(** The bound on the number of repetitions is never reached: a larger one
    gives the same matches. *)
Lemma iterate_fuel (step : mstate -> list mstate) (fuel : nat)
  (st : mstate) :
  length (after st) <= fuel ->
  iterate step fuel st = iterate step (length (after st)) st.
Proof.
  revert st. induction fuel as [fuel IH] using lt_wf_ind.
  intros st Hlen. rewrite (iterate_eq step fuel), (iterate_eq step (length _)).
  apply flat_map_ext_on. intros st' Hin. f_equal.
  unfold progress. destruct (Nat.ltb_spec (length (after st'))
    (length (after st))) as [Hlt|]; trivial.
  destruct fuel as [|f]; [lia|].
  destruct (length (after st)) as [|k] eqn:Ek; [lia|].
  rewrite (IH f) by lia. symmetry. apply IH; lia.
Qed.

Lemma moved_refl (st : mstate) : moved st st [].
Proof. split; reflexivity. Qed.

Lemma moved_trans (st1 st2 st3 : mstate) (w1 w2 : str) :
  moved st1 st2 w1 -> moved st2 st3 w2 -> moved st1 st3 (w1 ++ w2).
Proof.
  intros [A1 B1] [A2 B2]. split.
  - now rewrite A1, A2, app_assoc.
  - now rewrite B2, B1, rev_app_distr, app_assoc.
Qed.

Lemma moved_consumed (st st' : mstate) (w : str) :
  moved st st' w -> consumed st st' = w.
Proof.
  intros [_ B]. unfold consumed. rewrite B, length_app, length_rev.
  replace (length w + length (before st) - length (before st))
    with (length (rev w) + 0) by (rewrite length_rev; lia).
  rewrite firstn_app_2. simpl. now rewrite app_nil_r, rev_involutive.
Qed.

Section Iterate.

Variable r : regex.
Hypothesis step_sound : forall st st',
  In st' (run r st) -> exists w, moved st st' w /\ matches r w.

Lemma iterate_sound (fuel : nat) (st st' : mstate) :
  In st' (iterate (run r) fuel st) ->
  exists w, moved st st' w /\ matches (Plus r) w.
Proof.
  revert st. induction fuel as [|fuel IH]; intros st; rewrite iterate_eq;
    intros H; apply in_flat_map in H; destruct H as (st1 & H1 & H);
    apply in_app_iff in H;
    destruct (step_sound _ _ H1) as (w1 & Hm1 & Hw1).
  - destruct H as [H | [<- | []]].
    + now destruct (progress st st1).
    + exists w1. split; [trivial | now constructor].
  - destruct H as [H | [<- | []]].
    + destruct (progress st st1); [|easy].
      destruct (IH _ H) as (w2 & Hm2 & Hw2).
      exists (w1 ++ w2). split; [eapply moved_trans; eauto|].
      now apply M_plus_more.
    + exists w1. split; [trivial | now constructor].
Qed.

End Iterate.

(** Every result of the matcher is a match of the pattern, read from the
    cursor. *)
Lemma run_sound (r : regex) (st st' : mstate) :
  In st' (run r st) -> exists w, moved st st' w /\ matches r w.
Proof.
  revert st st'.
  induction r as [|p|r1 IH1 r2 IH2|r1 IH1 r2 IH2|r1 IH1|r1 IH1|r1 IH1| | |];
    intros st st' H; simpl in H.
  - destruct H as [<- | []]. exists []. split; [apply moved_refl|constructor].
  - destruct (after st) as [|c t] eqn:E; [easy|].
    destruct (p c) eqn:Ep; [|easy]. destruct H as [<- | []].
    exists [c]. split; [|now constructor]. now split.
  - apply in_flat_map in H. destruct H as (st1 & H1 & H2).
    destruct (IH1 _ _ H1) as (w1 & Hm1 & Hw1).
    destruct (IH2 _ _ H2) as (w2 & Hm2 & Hw2).
    exists (w1 ++ w2). split; [eapply moved_trans; eauto | now constructor].
  - apply in_app_iff in H. destruct H as [H | H].
    + destruct (IH1 _ _ H) as (w & Hm & Hw). exists w. split; trivial.
      now apply M_alt_l.
    + destruct (IH2 _ _ H) as (w & Hm & Hw). exists w. split; trivial.
      now apply M_alt_r.
  - now apply iterate_sound in H.
  - apply in_app_iff in H. destruct H as [H | [<- | []]].
    + destruct (IH1 _ _ H) as (w & Hm & Hw). exists w. split; trivial.
      now apply M_opt_some.
    + exists []. split; [apply moved_refl | constructor].
  - apply in_map_iff in H. destruct H as (st1 & <- & H).
    destruct (IH1 _ _ H) as (w & Hm & Hw). exists w. split; [|now constructor].
    exact Hm.
  - destruct (xorb _ _); [|easy]. destruct H as [<- | []].
    exists []. split; [apply moved_refl | constructor].
  - destruct (before st); [|easy]. destruct H as [<- | []].
    exists []. split; [apply moved_refl | constructor].
  - destruct (at_end st); [|easy]. destruct H as [<- | []].
    exists []. split; [apply moved_refl | constructor].
Qed.

Section Captures.

Variable P : str -> Prop.

Local Abbreviation cap_ok := (cap_ok P).

Lemma iterate_inv (Q : mstate -> Prop) (step : mstate -> list mstate) :
  (forall st st', Q st -> In st' (step st) -> Q st') ->
  forall fuel st st', Q st -> In st' (iterate step fuel st) -> Q st'.
Proof.
  intros Hstep. induction fuel as [|fuel IH]; intros st st' HQ;
    rewrite iterate_eq; intros H; apply in_flat_map in H;
    destruct H as (st1 & H1 & H); apply in_app_iff in H;
    pose proof (Hstep _ _ HQ H1) as HQ1.
  - destruct H as [H | [<- | []]]; trivial. now destruct (progress st st1).
  - destruct H as [H | [<- | []]]; trivial.
    destruct (progress st st1); [eauto | easy].
Qed.

Lemma run_captures (r : regex) (st st' : mstate) :
  captures P r -> cap_ok st -> In st' (run r st) -> cap_ok st'.
Proof.
  revert st st'.
  induction r as [|p|r1 IH1 r2 IH2|r1 IH1 r2 IH2|r1 IH1|r1 IH1|r1 IH1| | |];
    intros st st' HP Hst H; simpl in H, HP.
  - now destruct H as [<- | []].
  - destruct (after st) as [|c t]; [easy|]. destruct (p c); [|easy].
    now destruct H as [<- | []].
  - apply in_flat_map in H. destruct H as (st1 & H1 & H2).
    destruct HP. eauto.
  - apply in_app_iff in H. destruct HP. destruct H; eauto.
  - revert H. apply iterate_inv; trivial. intros; eapply IH1; eauto.
  - apply in_app_iff in H. destruct H as [H | [<- | []]]; eauto.
  - apply in_map_iff in H. destruct H as (st1 & <- & H).
    intros w Hw. simpl in Hw. injection Hw as <-.
    destruct (run_sound _ _ _ H) as (w & Hm & Hw).
    rewrite (moved_consumed Hm). now apply HP.
  - destruct (xorb _ _); [|easy]. now destruct H as [<- | []].
  - destruct (before st); [|easy]. now destruct H as [<- | []].
  - destruct (at_end st); [|easy]. now destruct H as [<- | []].
Qed.

End Captures.

Lemma run_sets_group (r : regex) (st st' : mstate) :
  In st' (run r st) -> sets_group r = true \/ cap st <> None ->
  cap st' <> None.
Proof.
  revert st st'.
  induction r as [|p|r1 IH1 r2 IH2|r1 IH1 r2 IH2|r1 IH1|r1 IH1|r1 IH1| | |];
    intros st st' H Hs; simpl in H, Hs;
    try (destruct Hs as [Hs | Hs]; [discriminate|]).
  - now destruct H as [<- | []].
  - destruct (after st) as [|c t]; [easy|]. destruct (p c); [|easy].
    now destruct H as [<- | []].
  - apply in_flat_map in H. destruct H as (st1 & H1 & H2).
    destruct Hs as [Hs | Hs].
    + apply orb_true_iff in Hs. destruct Hs as [Hs | Hs].
      * eapply IH2; eauto.
      * eapply IH2; eauto.
    + eapply IH2; eauto.
  - apply in_app_iff in H.
    assert (Hs' : (sets_group r1 = true \/ cap st <> None) /\
                  (sets_group r2 = true \/ cap st <> None)).
    { destruct Hs as [Hs | Hs]; [|tauto].
      apply andb_true_iff in Hs. tauto. }
    destruct Hs', H; eauto.
  - assert (Hstep : forall s s', (sets_group r1 = true \/ cap s <> None) ->
                      In s' (run r1 s) ->
                      (sets_group r1 = true \/ cap s' <> None))
      by (intros; right; eauto).
    pose proof (iterate_inv _ _ Hstep _ _ _ Hs H) as [Hg | Hc]; trivial.
    rewrite iterate_eq in H. apply in_flat_map in H.
    destruct H as (st1 & H1 & H). apply in_app_iff in H.
    destruct H as [H | [<- | []]]; [|eauto].
    destruct (progress st st1); [|easy].
    assert (Hc1 : cap st1 <> None) by eauto.
    destruct (length (after st)); [easy|].
    revert H. apply (iterate_inv (fun s => cap s <> None)); trivial.
    intros; eauto.
  - apply in_app_iff in H. destruct H as [H | [<- | []]]; eauto.
  - apply in_map_iff in H. now destruct H as (st1 & <- & H).
  - destruct (xorb _ _); [|easy]. now destruct H as [<- | []].
  - destruct (before st); [|easy]. now destruct H as [<- | []].
  - destruct (at_end st); [|easy]. now destruct H as [<- | []].
Qed.

Lemma exec_In (r : regex) (bef aft : str) (m : mstate) :
  exec r bef aft = Some m -> In m (run r (MState bef aft None)).
Proof.
  unfold exec. destruct (run r _) as [|m' l]; simpl; [discriminate|].
  intros [= ->]. now left.
Qed.

(** Every string reported by [findall] is the capture of a match. *)
Lemma findall_from_In (r : regex) (x : str) (aft bef : str) (skip : nat) :
  In x (findall_from r bef aft skip) ->
  exists b a m, exec r b a = Some m /\ x = group1 m.
Proof.
  revert bef skip. induction aft as [|c t IH]; intros bef skip H.
  - destruct skip; simpl in H; [|easy].
    destruct (exec r bef []) as [m|] eqn:E; [|easy].
    destruct H as [<- | []]. now exists bef, [], m.
  - destruct skip; simpl in H; [|eauto].
    destruct (exec r bef (c :: t)) as [m|] eqn:E; [|eauto].
    destruct H as [<- | H]; [|eauto]. now exists bef, (c :: t), m.
Qed.

Lemma findall_captures (P : str -> Prop) (r : regex) (text : str) :
  captures P r -> sets_group r = true -> Forall P (findall r text).
Proof.
  intros HP Hs. apply Forall_forall. intros x Hx.
  apply findall_from_In in Hx. destruct Hx as (b & a & m & E & ->).
  apply exec_In in E.
  assert (Hok : cap_ok P m)
    by (eapply run_captures; eauto; intros w; discriminate).
  assert (Hset : cap m <> None) by (eapply run_sets_group; eauto).
  unfold group1. destruct (cap m) as [w|] eqn:Ec; [|easy]. now apply Hok.
Qed.

(** ** The candidates of extract_potential_names *)

Lemma matches_chr (p : ascii -> bool) (w : str) :
  matches (Chr p) w -> exists c, w = [c] /\ p c = true.
Proof. inversion 1; subst. eauto. Qed.

Lemma matches_cat (r1 r2 : regex) (w : str) :
  matches (Cat r1 r2) w ->
  exists w1 w2, w = w1 ++ w2 /\ matches r1 w1 /\ matches r2 w2.
Proof. inversion 1; subst. eauto. Qed.

Lemma matches_group (r : regex) (w : str) :
  matches (Group r) w -> matches r w.
Proof. now inversion 1. Qed.

Lemma matches_opt (r : regex) (w : str) :
  matches (Opt r) w -> w = [] \/ matches r w.
Proof. inversion 1; subst; auto. Qed.

Lemma matches_plus (r : regex) (w : str) :
  matches (Plus r) w ->
  exists ws, ws <> [] /\ w = concat ws /\ Forall (matches r) ws.
Proof.
  remember (Plus r) as r' eqn:E. intros H. revert r E.
  induction H as [ | | | | |r w H _|r w1 w2 H1 _ H2 IH| | | | | | ];
    intros r0 E; try discriminate; injection E as ->.
  - exists [w]. simpl. rewrite app_nil_r. repeat split; [easy | auto].
  - destruct (IH _ eq_refl) as (ws & Hne & -> & Hall).
    exists (w1 :: ws). repeat split; [easy | auto].
Qed.

Lemma matches_plus_chr (p : ascii -> bool) (w : str) :
  matches (Plus (Chr p)) w -> w <> [] /\ Forall (fun c => p c = true) w.
Proof.
  intros H. apply matches_plus in H. destruct H as (ws & Hne & -> & Hall).
  split.
  - destruct ws as [|w ws]; [easy|]. inversion Hall as [|? ? Hw _]; subst.
    apply matches_chr in Hw. now destruct Hw as (c & -> & _).
  - clear Hne. induction Hall as [|w ws Hw _ IH]; simpl; [constructor|].
    apply matches_chr in Hw. destruct Hw as (c & -> & Hc). now constructor.
Qed.

Lemma matches_reads_only (A : ascii -> bool) (r : regex) (w : str) :
  matches r w -> reads_only A r -> Forall (fun c => A c = true) w.
Proof.
  induction 1 as [ |p c Hc|r1 r2 w1 w2 _ IH1 _ IH2|r1 r2 w _ IH|r1 r2 w _ IH
                  |r w _ IH|r w1 w2 _ IH1 _ IH2| |r w _ IH|r w _ IH| | | ];
    simpl; intros HA; try (constructor; fail); try (apply IH; tauto).
  - constructor; auto.
  - apply Forall_app. split; [apply IH1 | apply IH2]; tauto.
  - apply Forall_app. split; [apply IH1 | apply IH2]; tauto.
Qed.

Import ExtractNamesSimple.

Lemma matches_token (w : str) :
  matches (capital ;; Plus small)%re w -> title_case w.
Proof.
  intros H. apply matches_cat in H. destruct H as (w1 & w2 & -> & H1 & H2).
  apply matches_chr in H1. destruct H1 as (c & -> & Hc).
  apply matches_plus_chr in H2. now exists c, w2.
Qed.

Lemma matches_gap_token (w : str) :
  matches (Plus ws ;; capital ;; Plus small)%re w ->
  exists g t, w = g ++ t /\ whitespace g /\ title_case t.
Proof.
  intros H. apply matches_cat in H. destruct H as (g & t & -> & Hg & Ht).
  apply matches_plus_chr in Hg. apply matches_token in Ht. now exists g, t.
Qed.

Lemma matches_gap_initial (w : str) :
  matches (Plus ws ;; capital ;; Opt (chr "."))%re w ->
  exists g i, w = g ++ i /\ whitespace g /\ initial i.
Proof.
  intros H. apply matches_cat in H. destruct H as (g & i & -> & Hg & Hi).
  apply matches_plus_chr in Hg.
  apply matches_cat in Hi. destruct Hi as (i1 & i2 & -> & H1 & H2).
  apply matches_chr in H1. destruct H1 as (c & -> & Hc).
  exists g, ([c] ++ i2). repeat split; try apply Hg.
  exists c. split; trivial.
  apply matches_opt in H2. destruct H2 as [-> | H2]; [now left|].
  apply matches_chr in H2. destruct H2 as (d & -> & Hd).
  apply Ascii.eqb_eq in Hd. subst. now right.
Qed.

(** *** Tokens *)

Ltac by_cases c :=
  destruct c as [[|] [|] [|] [|] [|] [|] [|] [|]];
  vm_compute; try reflexivity; try discriminate.

Lemma capital_not_space (c : ascii) :
  range "A" "Z" c = true -> is_space c = false.
Proof. by_cases c. Qed.

Lemma small_not_space (c : ascii) :
  range "a" "z" c = true -> is_space c = false.
Proof. by_cases c. Qed.

Lemma title_case_token (t : str) : title_case t -> token t.
Proof.
  intros (c & cs & -> & Hc & _ & Hcs). split; [easy|].
  constructor; [now apply capital_not_space|].
  eapply Forall_impl; [|exact Hcs]. apply small_not_space.
Qed.

Lemma initial_token (t : str) : initial t -> token t.
Proof.
  intros (c & Hc & [-> | ->]); (split; [easy|]);
    repeat constructor; now apply capital_not_space.
Qed.

Lemma split_from_token (t s cur : str) :
  Forall (fun c => is_space c = false) t ->
  split_from cur (t ++ s) = split_from (rev t ++ cur) s.
Proof.
  intros H. revert cur. induction H as [|c t Hc _ IH]; intros cur; simpl;
    trivial.
  now rewrite Hc, IH, <- app_assoc.
Qed.

Lemma split_from_spaces (g s : str) :
  Forall (fun c => is_space c = true) g ->
  split_from [] (g ++ s) = split_from [] s.
Proof. induction 1 as [|c g Hc _ IH]; simpl; trivial. now rewrite Hc. Qed.

Lemma split_token_gap (t g s : str) :
  token t -> whitespace g ->
  split_from [] (t ++ g ++ s) = t :: split_from [] s.
Proof.
  intros [Hne Ht] [Hg Hsp]. rewrite split_from_token by trivial.
  rewrite app_nil_r.
  destruct g as [|c g]; [easy|]. inversion Hsp as [|? ? Hc Hsp']; subst.
  simpl. rewrite Hc.
  destruct (rev t) as [|x l] eqn:E.
  - apply (f_equal (@rev _)) in E. rewrite rev_involutive in E. now subst.
  - rewrite <- E, rev_involutive. f_equal. now apply split_from_spaces.
Qed.

Lemma split_token_end (t : str) : token t -> split_from [] t = [t].
Proof.
  intros [Hne Ht]. rewrite <- (app_nil_r t) at 1.
  rewrite split_from_token by trivial. simpl. rewrite app_nil_r.
  destruct (rev t) as [|x l] eqn:E.
  - apply (f_equal (@rev _)) in E. rewrite rev_involutive in E. now subst.
  - now rewrite <- E, rev_involutive.
Qed.

Lemma split_glue (t : str) (l : list (str * str)) :
  token t ->
  Forall (fun gt => whitespace (fst gt) /\ token (snd gt)) l ->
  split (t ++ glue l) = t :: map snd l.
Proof.
  unfold split, glue. intros Ht Hl. revert t Ht.
  induction Hl as [|[g t'] l [Hg Ht'] _ IH]; intros t Ht; simpl.
  - rewrite app_nil_r. now apply split_token_end.
  - simpl in Hg, Ht'. rewrite <- app_assoc, split_token_gap by trivial.
    now rewrite IH.
Qed.

Lemma glue_app (l1 l2 : list (str * str)) :
  glue (l1 ++ l2) = glue l1 ++ glue l2.
Proof. unfold glue. now rewrite map_app, concat_app. Qed.

Lemma name_body_shape (w : str) : matches name_body w -> name_shape w.
Proof.
  unfold name_body. intros H.
  apply matches_cat in H. destruct H as (c & w1 & -> & Hc & H).
  apply matches_cat in H. destruct H as (cs & w2 & -> & Hcs & H).
  apply matches_cat in H. destruct H as (mid & w3 & -> & Hmid & Hrest).
  assert (Hfirst : title_case (c ++ cs))
    by (apply matches_token; now constructor).
  apply matches_plus in Hrest. destruct Hrest as (ws & Hne & -> & Hall).
  assert (Hpairs : exists rest : list (str * str),
            ws = map (fun gt => fst gt ++ snd gt) rest /\
            Forall (fun gt => whitespace (fst gt) /\ title_case (snd gt)) rest).
  { clear Hne. induction Hall as [|w ws Hw _ (rest & -> & Hrest)].
    - now exists [].
    - apply matches_gap_token in Hw. destruct Hw as (g & t & -> & Hg & Ht).
      exists ((g, t) :: rest). split; [reflexivity | now constructor]. }
  destruct Hpairs as (rest & -> & Hrest).
  assert (Hmiddle : exists middle : list (str * str),
            mid = glue middle /\ length middle <= 1 /\
            Forall (fun gt => whitespace (fst gt) /\ initial (snd gt)) middle).
  { apply matches_opt in Hmid. destruct Hmid as [-> | Hmid].
    - exists []. simpl. auto.
    - apply matches_gap_initial in Hmid.
      destruct Hmid as (g & i & -> & Hg & Hi).
      exists [(g, i)]. unfold glue. simpl. rewrite app_nil_r.
      repeat split; auto. }
  destruct Hmiddle as (middle & -> & Hlen & Hmiddle).
  exists (c ++ cs), middle, rest. fold (glue rest). rewrite (app_assoc c cs).
  repeat split; trivial.
  - now destruct rest.
  - rewrite <- glue_app, <- map_app. apply split_glue.
    + now apply title_case_token.
    + apply Forall_app. split; (eapply Forall_impl; [|eassumption]);
        intros [g t] [Hg Ht]; split; trivial;
        [now apply initial_token | now apply title_case_token].
Qed.

Lemma name_body_chars : reads_only candidate_char name_body.
Proof.
  unfold candidate_char, name_body, capital, small, ws, chr.
  cbn [reads_only].
  repeat split; intros c Hc;
    first [ rewrite Hc; rewrite ?orb_true_r; reflexivity
          | apply Ascii.eqb_eq in Hc; subst; reflexivity ].
Qed.

Lemma candidates_match (text : str) :
  Forall (matches name_body) (extract_potential_names text).
Proof.
  unfold extract_potential_names. apply Forall_app. split.
  - apply findall_captures; [|reflexivity]. simpl. auto.
  - apply findall_captures; [|reflexivity].
    unfold title_pattern. cbn [captures]. repeat split; trivial.
Qed.

(** C3, as stated, fails: the last part of the pattern repeats without
    bound, and "Alpha Beta Gamma Delta Epsilon" is returned whole, a
    candidate of five tokens; and the tokens of a candidate may be
    separated by a line break instead of a space. *)
Lemma candidate_with_five_tokens :
  extract_potential_names (lit "Alpha Beta Gamma Delta Epsilon")
  = [lit "Alpha Beta Gamma Delta Epsilon"] /\
  length (split (lit "Alpha Beta Gamma Delta Epsilon")) = 5 /\
  extract_potential_names (lit "John" ++ newline :: lit "Smith")
  = [lit "John" ++ newline :: lit "Smith"].
Proof. vm_compute. repeat split. Qed.

(** C3, amended. Every candidate of extract_potential_names, on any text,
    is a title-case token (a capital A-Z and one or more of a-z), then
    possibly one initial (a capital with or without a full stop), then one
    or more title-case tokens, with whitespace between tokens: two tokens
    at least, and no bound on their number. *)
Theorem candidates_have_name_shape (text : str) :
  Forall (fun c => name_shape c /\ 2 <= length (split c))
         (extract_potential_names text).
Proof.
  eapply Forall_impl; [|apply candidates_match].
  intros w Hw. apply name_body_shape in Hw. split; trivial.
  destruct Hw as (first & middle & rest & _ & _ & _ & _ & Hne & _ & ->).
  destruct rest; [easy|]. simpl. rewrite length_app. simpl. lia.
Qed.

(** ** Characters kept by clean_name *)

Section Kept.

Variable A : ascii -> Prop.

Lemma lstrip_Forall (s : str) : Forall A s -> Forall A (lstrip s).
Proof.
  induction 1 as [|c s Hc Hs IH]; simpl; [constructor|].
  destruct (is_space c); [trivial | now constructor].
Qed.

Lemma strip_Forall (s : str) : Forall A s -> Forall A (strip s).
Proof.
  intros H. unfold strip, rstrip.
  now apply Forall_rev, lstrip_Forall, Forall_rev, lstrip_Forall.
Qed.

Lemma sub_from_Forall (r : regex) (repl aft bef : str) (skip : nat) :
  Forall A repl -> Forall A aft -> Forall A (sub_from r repl bef aft skip).
Proof.
  intros Hrepl Haft. revert bef skip.
  induction Haft as [|c t Hc Ht IH]; intros bef skip.
  - destruct skip; simpl; [|constructor].
    destruct (exec r bef []); [|constructor]. now rewrite app_nil_r.
  - destruct skip; simpl; [|apply IH].
    destruct (exec r bef (c :: t)) as [m|].
    + apply Forall_app. split; trivial.
      destruct (width bef m); [constructor|]; trivial.
    + now constructor.
Qed.

Lemma clean_name_Forall (name : str) :
  A " " -> Forall A name -> Forall A (clean_name name).
Proof.
  intros Hsp H. unfold clean_name, sub.
  repeat apply sub_from_Forall; try constructor; trivial.
  now apply strip_Forall.
Qed.

End Kept.

Lemma candidate_char_plain (c : ascii) :
  candidate_char c = true -> range "0" "9" c = false /\ c <> ",".
Proof.
  destruct c as [[|] [|] [|] [|] [|] [|] [|] [|]]; vm_compute;
    intros H; try discriminate H; split; (reflexivity || discriminate).
Qed.

Lemma candidate_char_kind (c : ascii) :
  candidate_char c = true ->
  is_alpha c = true \/ is_space c = true \/ c = ".".
Proof.
  unfold candidate_char. intros H.
  apply orb_true_iff in H. destruct H as [H | H];
    [apply orb_true_iff in H; destruct H as [H | H];
     [apply orb_true_iff in H; destruct H as [H | H]|]|].
  - left. revert H. by_cases c.
  - left. revert H. by_cases c.
  - auto.
  - apply Ascii.eqb_eq in H. auto.
Qed.

(** C9. Every character of every candidate of extract_potential_names is a
    letter A-Z or a-z, a whitespace character or a full stop: never a digit
    or a comma.  The same holds of every name that the pipeline of the
    pattern script returns, so with this generator no digit passes the
    strict validator. *)
Theorem candidates_have_plain_characters (text : str) (pages : list str) :
  let plain c :=
    candidate_char c = true /\
    (is_alpha c = true \/ is_space c = true \/ c = ".") /\
    range "0" "9" c = false /\ c <> "," in
  Forall (Forall plain) (extract_potential_names text) /\
  Forall (Forall plain) (extract_names_from_pdf pages).
Proof.
  cbv zeta.
  assert (Hplain : forall s, Forall (fun c => candidate_char c = true) s ->
            Forall (fun c => candidate_char c = true /\
              (is_alpha c = true \/ is_space c = true \/ c = ".") /\
              range "0" "9" c = false /\ c <> ",") s).
  { intros s. apply Forall_impl. intros c Hc.
    auto using candidate_char_kind, candidate_char_plain. }
  assert (Hcand : forall t, Forall (Forall (fun c => candidate_char c = true))
                             (extract_potential_names t)).
  { intros t. eapply Forall_impl; [|apply candidates_match].
    intros w Hw. exact (matches_reads_only candidate_char Hw name_body_chars). }
  split.
  - eapply Forall_impl; [|apply Hcand]. apply Hplain.
  - apply Forall_forall. intros x Hx. apply Hplain.
    rewrite strict_is_pipeline in Hx. apply pipeline_In in Hx.
    destruct Hx as (_ & page & c & _ & Hc & ->).
    apply clean_name_Forall; [reflexivity|].
    specialize (Hcand page). rewrite Forall_forall in Hcand. auto.
Qed.

(** ** The first step of clean_name: whitespace *)

Lemma hd_error_app (A : Type) (l1 l2 : list A) (x : A) :
  hd_error l1 = Some x -> hd_error (l1 ++ l2) = Some x.
Proof. now destruct l1. Qed.

(** A greedy run of single characters first reads as many as it can. *)
Lemma iterate_chr_hd (p : ascii -> bool) (fuel : nat) (bef : str) (c : ascii)
  (t : str) (cp : option str) :
  p c = true -> length (c :: t) <= fuel ->
  exists g r,
    t = g ++ r /\ Forall (fun x => p x = true) g /\
    match r with [] => True | x :: _ => p x = false end /\
    hd_error (iterate (run (Chr p)) fuel (MState bef (c :: t) cp))
    = Some (MState (rev g ++ c :: bef) r cp).
Proof.
  revert bef c t. induction fuel as [|fuel IH]; intros bef c t Hc Hlen;
    [simpl in Hlen; lia|].
  rewrite iterate_eq. cbn [run after before cap]. rewrite Hc.
  cbn [flat_map]. unfold progress. cbn [after].
  replace (Nat.ltb (length t) (length (c :: t))) with true
    by (symmetry; apply Nat.ltb_lt; simpl; lia).
  rewrite app_nil_r.
  destruct t as [|c' t'].
  - exists [], []. repeat split; trivial. now destruct fuel.
  - destruct (p c') eqn:Ec'.
    + destruct (IH (c :: bef) c' t' Ec') as (g & r & -> & Hg & Hr & Hhd);
        [simpl in *; lia|].
      exists (c' :: g), r. repeat split; trivial; [now constructor|].
      rewrite (hd_error_app _ _ Hhd). simpl. now rewrite <- app_assoc.
    + exists [], (c' :: t'). repeat split; trivial.
      rewrite iterate_eq. cbn [run after]. now rewrite Ec'.
Qed.

Lemma lstrip_spaces (g r : str) :
  Forall (fun x => is_space x = true) g -> lstrip (g ++ r) = lstrip r.
Proof. induction 1 as [|x g Hx _ IH]; simpl; trivial. now rewrite Hx. Qed.

Lemma lstrip_fixed (r : str) :
  match r with [] => True | x :: _ => is_space x = false end -> lstrip r = r.
Proof. destruct r as [|x r]; simpl; trivial. now intros ->. Qed.

Lemma exec_spaces_none (bef aft : str) :
  match aft with [] => True | x :: _ => is_space x = false end ->
  exec spaces_re bef aft = None.
Proof.
  unfold exec, spaces_re, ws. cbn [run after]. rewrite iterate_eq.
  cbn [run after]. destruct aft as [|x t]; trivial. now intros ->.
Qed.

Lemma exec_spaces_some (bef : str) (c : ascii) (t : str) :
  is_space c = true ->
  exists g m,
    exec spaces_re bef (c :: t) = Some m /\
    t = g ++ lstrip t /\ width bef m = S (length g).
Proof.
  intros Hc. unfold exec, spaces_re, ws. cbn [run after].
  destruct (@iterate_chr_hd is_space _ bef c t None Hc (le_n _))
    as (g & r & Ht & Hg & Hr & Hhd).
  exists g, (MState (rev g ++ c :: bef) r None). split; trivial.
  split.
  - rewrite Ht at 1. now rewrite Ht, lstrip_spaces, lstrip_fixed.
  - unfold width. cbn [before]. rewrite length_app, length_rev. simpl. lia.
Qed.

(** Passing over the rest of a match. *)
Lemma sub_from_skip (r : regex) (repl w rest bef : str) :
  sub_from r repl bef (w ++ rest) (length w)
  = sub_from r repl (rev w ++ bef) rest 0.
Proof.
  revert bef. induction w as [|c w IH]; intros bef; simpl; trivial.
  now rewrite IH, <- app_assoc.
Qed.

Lemma squeeze_lstrip (s : str) : squeeze true s = squeeze false (lstrip s).
Proof.
  induction s as [|c t IH]; simpl; trivial.
  destruct (is_space c) eqn:E; trivial. simpl. now rewrite E.
Qed.

Lemma lstrip_length (s : str) : length (lstrip s) <= length s.
Proof.
  induction s as [|c t IH]; simpl; trivial.
  destruct (is_space c); simpl; lia.
Qed.

(** [re.sub(r'\s+', ' ', s)] turns every run of whitespace into a space. *)
Lemma sub_spaces_squeeze (s bef : str) :
  sub_from spaces_re (lit " ") bef s 0 = squeeze false s.
Proof.
  change (lit " ") with [" "].
  remember (length s) as n eqn:En. revert s bef En.
  induction n as [n IH] using lt_wf_ind. intros s bef En.
  destruct s as [|c t].
  - cbn [sub_from squeeze]. now rewrite exec_spaces_none.
  - cbn [sub_from squeeze]. destruct (is_space c) eqn:Ec.
    + destruct (@exec_spaces_some bef c t Ec) as (g & m & -> & Ht & ->).
      rewrite squeeze_lstrip. rewrite Ht at 1.
      rewrite sub_from_skip. cbn [app]. f_equal.
      apply (IH (length (lstrip t))); trivial.
      subst n. simpl. pose proof (lstrip_length t). lia.
    + rewrite exec_spaces_none by now rewrite Ec.
      f_equal. apply (IH (length t)); trivial. subst n. simpl. lia.
Qed.

(** ** Tidy strings *)

Lemma lstrip_head (s : str) :
  match lstrip s with [] => True | x :: _ => is_space x = false end.
Proof.
  induction s as [|c t IH]; simpl; trivial.
  destruct (is_space c) eqn:E; trivial.
Qed.

Lemma lstrip_snoc (l : str) (c : ascii) :
  is_space c = false -> lstrip (l ++ [c]) = lstrip l ++ [c].
Proof.
  intros Hc. induction l as [|x l IH]; simpl; [now rewrite Hc|].
  now destruct (is_space x).
Qed.

Lemma rstrip_cons (c : ascii) (t : str) :
  is_space c = false -> rstrip (c :: t) = c :: rstrip t.
Proof.
  intros Hc. unfold rstrip. simpl.
  now rewrite lstrip_snoc, rev_app_distr.
Qed.

Lemma rstrip_last (s : str) :
  rstrip s = [] \/ exists init c, rstrip s = init ++ [c] /\ is_space c = false.
Proof.
  unfold rstrip. pose proof (lstrip_head (rev s)) as H.
  destruct (lstrip (rev s)) as [|x l]; [now left|].
  right. now exists (rev l), x.
Qed.

Lemma tidy_squeeze (init : str) (c : ascii) (b : bool) :
  is_space c = false -> tidy_from b (squeeze b (init ++ [c])) = true.
Proof.
  intros Hc. revert b. induction init as [|x init IH]; intros b; simpl.
  - rewrite Hc. simpl. now rewrite Hc.
  - destruct (is_space x) eqn:Ex.
    + destruct b; [apply IH|]. simpl. now rewrite IH.
    + simpl. rewrite Ex. apply IH.
Qed.

Lemma tidy_strip_squeeze (s : str) : tidy (squeeze false (strip s)).
Proof.
  unfold strip. pose proof (lstrip_head s) as H.
  destruct (lstrip s) as [|x t]; [now left|].
  right. rewrite rstrip_cons by trivial.
  destruct (rstrip_last (x :: t)) as [E | (init & c & E & Hc)];
    rewrite rstrip_cons in E by trivial; [discriminate|].
  rewrite E.
  replace (squeeze false (init ++ [c])) with (squeeze true (init ++ [c]));
    [now apply tidy_squeeze|].
  rewrite <- E. simpl. now rewrite H.
Qed.

Lemma squeeze_tidy (n : str) (b : bool) :
  tidy_from b n = true -> squeeze b n = n.
Proof.
  revert b. induction n as [|c t IH]; intros b; simpl; trivial.
  destruct (is_space c).
  - intros H. apply andb_true_iff in H. destruct H as [H Ht].
    apply andb_true_iff in H. destruct H as [Hc Hb].
    apply Ascii.eqb_eq in Hc. subst c.
    destruct b; [discriminate|]. now rewrite IH.
  - intros H. now rewrite IH.
Qed.

Lemma tidy_head (n : str) :
  tidy_from true n = true ->
  exists c t, n = c :: t /\ is_space c = false /\ tidy_from false t = true.
Proof.
  destruct n as [|c t]; simpl; [discriminate|].
  destruct (is_space c) eqn:E.
  - rewrite andb_false_r. discriminate.
  - intros H. now exists c, t.
Qed.

Lemma tidy_last (n : str) (b : bool) :
  tidy_from b n = true -> n <> [] ->
  exists init c, n = init ++ [c] /\ is_space c = false.
Proof.
  revert b. induction n as [|c t IH]; intros b H Hne; [easy|].
  destruct t as [|c' t'].
  - exists [], c. split; trivial. simpl in H.
    destruct (is_space c); trivial. now rewrite andb_false_r in H.
  - assert (Ht : exists b', tidy_from b' (c' :: t') = true).
    { cbn [tidy_from] in H. destruct (is_space c).
      - apply andb_true_iff in H. destruct H as [_ H]. now exists true.
      - now exists false. }
    destruct Ht as (b' & Ht).
    destruct (IH b' Ht) as (init & x & E & Hx); [easy|].
    exists (c :: init), x. split; trivial. simpl. now rewrite E.
Qed.

(** On a tidy string the first step of clean_name changes nothing. *)
Lemma tidy_fixed (n : str) :
  tidy n -> sub spaces_re (lit " ") (strip n) = n.
Proof.
  unfold sub. rewrite sub_spaces_squeeze.
  intros [-> | H]; [reflexivity|].
  destruct (@tidy_head _ H) as (c & t & -> & Hc & Ht).
  assert (Hstrip : strip (c :: t) = c :: t).
  { unfold strip. simpl. rewrite Hc.
    destruct (@tidy_last _ _ H) as (init & x & E & Hx); [easy|].
    rewrite E. unfold rstrip. rewrite rev_app_distr. simpl.
    rewrite Hx. simpl. now rewrite rev_involutive. }
  rewrite Hstrip. simpl. rewrite Hc. f_equal. now apply squeeze_tidy.
Qed.

Lemma tidy_after_space (w : str) (c : ascii) (rest : str) (b : bool) :
  tidy_from b (w ++ c :: rest) = true -> is_space c = true ->
  tidy_from true rest = true.
Proof.
  intros H Hc. revert b H. induction w as [|x w IH]; intros b H; simpl in H.
  - rewrite Hc in H. apply andb_true_iff in H. tauto.
  - destruct (is_space x); [|eauto].
    apply andb_true_iff in H. destruct H. eauto.
Qed.

Lemma tidy_before_space (pre : str) (c : ascii) (w : str) (b : bool) :
  tidy_from b (pre ++ c :: w) = true -> is_space c = true ->
  tidy_from b pre = true.
Proof.
  intros H Hc. revert b H. induction pre as [|x pre IH]; intros b H;
    simpl in *.
  - rewrite Hc in H. apply andb_true_iff in H. destruct H as [H _].
    apply andb_true_iff in H. tauto.
  - destruct (is_space x); [|eauto].
    apply andb_true_iff in H. destruct H as [H1 H2]. rewrite H1. eauto.
Qed.

Lemma tidy_no_newline (n : str) (b : bool) :
  tidy_from b n = true -> ~ In newline n.
Proof.
  revert b. induction n as [|c t IH]; intros b H Hin; [easy|].
  simpl in H. destruct Hin as [Hin | Hin].
  - subst c. vm_compute in H. discriminate.
  - destruct (is_space c); [|exact (IH _ H Hin)].
    apply andb_true_iff in H. destruct H as [_ H]. exact (IH _ H Hin).
Qed.

(** ** Patterns anchored at the start or at the end *)

Lemma exec_bol (r : regex) (bef aft : str) :
  bef <> [] -> exec (Bol ;; r) bef aft = None.
Proof. now destruct bef. Qed.

Lemma sub_from_bol (r : regex) (repl aft bef : str) :
  bef <> [] -> sub_from (Bol ;; r) repl bef aft 0 = aft.
Proof.
  revert bef. induction aft as [|x t IH]; intros bef Hne;
    cbn [sub_from]; rewrite exec_bol; trivial.
  now rewrite IH.
Qed.

Lemma sub_bol_none (r : regex) (repl n : str) :
  exec (Bol ;; r) [] n = None -> sub (Bol ;; r) repl n = n.
Proof.
  unfold sub. intros E. destruct n as [|c t]; cbn [sub_from]; rewrite E;
    trivial.
  now rewrite sub_from_bol.
Qed.

Lemma sub_bol_some (r : regex) (repl n : str) (m : mstate) (w : str) :
  exec (Bol ;; r) [] n = Some m -> moved (MState [] n None) m w -> w <> [] ->
  sub (Bol ;; r) repl n = repl ++ after m.
Proof.
  unfold sub. intros E [Ha Hb] Hw. cbn [after before] in Ha, Hb.
  destruct w as [|c w]; [easy|]. subst n. cbn [app] in E.
  cbn [sub_from app]. rewrite E. unfold width. rewrite Hb.
  rewrite app_nil_r, length_rev. cbn [length Nat.sub].
  rewrite sub_from_skip, sub_from_bol; trivial.
  now destruct (rev w).
Qed.

Lemma run_ends_with_eol (r : regex) (st st' : mstate) :
  ends_with_eol r = true -> In st' (run r st) -> at_end st' = true.
Proof.
  revert st.
  induction r as [|p|r1 _ r2 IH2|r1 _ r2 _|r1 _|r1 _|r1 _| | |];
    intros st He H; try discriminate; simpl in *.
  - apply in_flat_map in H. destruct H as (st1 & _ & H). eauto.
  - destruct (at_end st) eqn:E; [|easy]. now destruct H as [<- | []].
Qed.

Lemma at_end_nil (st : mstate) :
  at_end st = true -> ~ In newline (after st) -> after st = [].
Proof.
  unfold at_end. destruct (after st) as [|c [|c' t]]; trivial; [|easy].
  intros H Hn. apply Ascii.eqb_eq in H. subst. exfalso. apply Hn. now left.
Qed.

Lemma whitespace_last (g : str) :
  whitespace g -> exists g' c, g = g' ++ [c] /\ is_space c = true.
Proof.
  intros [Hne Hg]. destruct (exists_last Hne) as (g' & c & ->).
  exists g', c. split; trivial.
  apply Forall_app in Hg. destruct Hg as [_ Hc]. now inversion Hc.
Qed.

Lemma whitespace_first (g : str) :
  whitespace g -> exists c g', g = c :: g' /\ is_space c = true.
Proof.
  intros [Hne Hg]. destruct g as [|c g']; [easy|].
  exists c, g'. split; trivial. now inversion Hg.
Qed.

(** *** The second step of clean_name: titles *)

Lemma matches_titles (w : str) :
  matches titles w -> exists w' c, w = w' ++ [c] /\ is_space c = true.
Proof.
  unfold titles. intros H.
  apply matches_cat in H. destruct H as (w0 & w1 & -> & H0 & H).
  inversion H0; subst. clear H0.
  apply matches_cat in H. destruct H as (w1' & w2 & -> & _ & H).
  apply matches_plus_chr in H.
  destruct (whitespace_last H) as (g' & c & -> & Hc).
  exists (w1' ++ g'), c. split; trivial. simpl. now rewrite app_assoc.
Qed.

Lemma titles_tidy (n : str) : tidy n -> tidy (sub titles [] n).
Proof.
  intros Hn. unfold titles.
  destruct (exec (Bol;; Group (alts (map word_i honorifics));; Plus ws) [] n)
    as [m|] eqn:E.
  - destruct (run_sound _ _ _ (exec_In _ _ _ E)) as (w & Hm & Hw).
    apply matches_titles in Hw. destruct Hw as (w' & c & -> & Hc).
    rewrite (@sub_bol_some _ [] _ _ _ E Hm) by now destruct w'.
    destruct Hn as [-> | Hn].
    + destruct Hm as [Hm _]. now destruct w'.
    + right. destruct Hm as [Hm _]. cbn [after] in Hm. rewrite Hm in Hn.
      rewrite <- app_assoc in Hn. simpl in Hn.
      exact (tidy_after_space _ _ _ _ Hn Hc).
  - now rewrite sub_bol_none.
Qed.

(** *** The third step of clean_name: suffixes *)

Lemma matches_suffixes (w : str) :
  matches suffixes w -> exists c w', w = c :: w' /\ is_space c = true.
Proof.
  unfold suffixes. intros H.
  apply matches_cat in H. destruct H as (g & w1 & -> & Hg & _).
  apply matches_plus_chr in Hg.
  destruct (whitespace_first Hg) as (c & g' & -> & Hc).
  now exists c, (g' ++ w1).
Qed.

Lemma exec_suffixes_nil (bef : str) : exec suffixes bef [] = None.
Proof. reflexivity. Qed.

(** Either nothing is removed, or everything from some whitespace
    character on. *)
Lemma sub_suffixes_shape (aft bef : str) :
  ~ In newline aft ->
  sub_from suffixes [] bef aft 0 = aft \/
  exists pre c w,
    aft = pre ++ c :: w /\ is_space c = true /\
    sub_from suffixes [] bef aft 0 = pre.
Proof.
  revert bef. induction aft as [|x t IH]; intros bef Hn.
  - left. reflexivity.
  - cbn [sub_from]. destruct (exec suffixes bef (x :: t)) as [m|] eqn:E.
    + right. pose proof (exec_In _ _ _ E) as Hin.
      destruct (run_sound _ _ _ Hin) as (w & [Ha Hb] & Hw).
      cbn [after before] in Ha, Hb.
      assert (Hend : after m = []).
      { apply at_end_nil.
        - now apply (run_ends_with_eol suffixes _ _ eq_refl Hin).
        - intros Hc. apply Hn. rewrite Ha. apply in_or_app. now right. }
      rewrite Hend, app_nil_r in Ha. subst w.
      apply matches_suffixes in Hw. destruct Hw as (c & w' & [= <- <-] & Hc).
      exists [], x, t. repeat split; trivial.
      unfold width. rewrite Hb, length_app, length_rev. cbn [app length].
      replace (S (length t) + length bef - length bef) with (S (length t))
        by lia.
      rewrite <- (app_nil_r t) at 1. rewrite sub_from_skip.
      cbn [sub_from]. now rewrite exec_suffixes_nil.
    + destruct (IH (x :: bef)) as [-> | (pre & c & w & -> & Hc & ->)].
      * intros Hc. apply Hn. now right.
      * now left.
      * right. now exists (x :: pre), c, w.
Qed.

Lemma suffixes_tidy (n : str) : tidy n -> tidy (sub suffixes [] n).
Proof.
  intros [-> | Hn]; [now left|].
  destruct (sub_suffixes_shape n [] (tidy_no_newline _ _ Hn))
    as [E | (pre & c & w & E & Hc & E')]; unfold sub.
  - rewrite E. now right.
  - rewrite E'. right. rewrite E in Hn.
    exact (tidy_before_space _ _ _ _ Hn Hc).
Qed.

(** Every result of clean_name is tidy. *)
Lemma clean_name_tidy (name : str) : tidy (clean_name name).
Proof.
  unfold clean_name. apply suffixes_tidy, titles_tidy.
  unfold sub. rewrite sub_spaces_squeeze. apply tidy_strip_squeeze.
Qed.

(** C2, as stated, fails: "Mr. Smith" is the result of clean_name on
    "Dr. Mr. Smith", and clean_name turns it into "Smith". *)
Lemma clean_name_not_idempotent :
  clean_name (lit "Dr. Mr. Smith") = lit "Mr. Smith" /\
  clean_name (lit "Mr. Smith") = lit "Smith" /\
  clean_name (clean_name (lit "Dr. Mr. Smith"))
  <> clean_name (lit "Dr. Mr. Smith").
Proof. vm_compute. repeat split. discriminate. Qed.

(** C2, amended. On a result [s] of clean_name the whitespace step changes
    nothing, and clean_name returns [s] unchanged when [s] has no title at
    its start and no suffix at its end left to remove. *)
Theorem clean_name_fixed_point (name : str) :
  let s := clean_name name in
  sub spaces_re (lit " ") (strip s) = s /\
  (sub titles [] s = s -> sub suffixes [] s = s -> clean_name s = s).
Proof.
  cbv zeta. pose proof (tidy_fixed (clean_name_tidy name)) as Hfix.
  split; trivial.
  intros Ht Hs. unfold clean_name at 1. now rewrite Hfix, Ht, Hs.
Qed.

Lemma clean_name_fixed_point_witness :
  clean_name (clean_name (lit "  Dr.   Jane  Smith Jr. "))
  = clean_name (lit "  Dr.   Jane  Smith Jr. ").
Proof.
  apply (clean_name_fixed_point (lit "  Dr.   Jane  Smith Jr. "));
    vm_compute; reflexivity.
Defined.

(** ** A title at the start *)

Lemma is_space_lower (c : ascii) : is_space (lower c) = is_space c.
Proof. by_cases c. Qed.

Lemma same_ci_length (a b : str) : same_ci a b -> length a = length b.
Proof.
  unfold same_ci. intros H. apply (f_equal (@length _)) in H.
  now rewrite !length_map in H.
Qed.

Lemma same_ci_token (a b : str) : same_ci a b -> token b -> token a.
Proof.
  intros H [Hne Hb]. split.
  - intros ->. apply same_ci_length in H. now destruct b.
  - unfold same_ci in H. revert b H Hne Hb.
    induction a as [|x a IH]; intros [|y b] H Hne Hb; try discriminate;
      constructor.
    + injection H as Hxy _. inversion Hb; subst.
      now rewrite <- is_space_lower, Hxy, is_space_lower.
    + injection H as _ H. inversion Hb; subst.
      destruct b as [|z b]; [now destruct a|]. now apply (IH (z :: b)).
Qed.

Lemma honorifics_tokens (h : str) : In h honorifics -> token h.
Proof.
  intros H. simpl in H.
  repeat (destruct H as [<- | H]; [split; [easy | now repeat constructor]|]).
  easy.
Qed.

Lemma lstrip_app_nonempty (a b : str) :
  lstrip a <> [] -> lstrip (a ++ b) = lstrip a ++ b.
Proof.
  induction a as [|x a IH]; simpl; [easy|]. now destruct (is_space x).
Qed.

Lemma rstrip_app (l r : str) :
  rstrip r <> [] -> rstrip (l ++ r) = l ++ rstrip r.
Proof.
  unfold rstrip. intros H. rewrite rev_app_distr.
  rewrite lstrip_app_nonempty, rev_app_distr, rev_involutive; trivial.
  intros E. now rewrite E in H.
Qed.

Lemma squeeze_token (a s : str) (b : bool) :
  token a -> squeeze b (a ++ s) = a ++ squeeze false s.
Proof.
  intros [Hne Ha]. revert b. induction Ha as [|x a Hx _ IH]; intros b;
    [easy|].
  simpl. rewrite Hx. f_equal. destruct a as [|y a]; trivial. now apply IH.
Qed.

Lemma squeeze_spaces (g s : str) :
  Forall (fun x => is_space x = true) g ->
  squeeze true (g ++ s) = squeeze true s.
Proof. induction 1 as [|x g Hx _ IH]; simpl; trivial. now rewrite Hx. Qed.

(** The first step of clean_name on a title, whitespace and more text. *)
Lemma squeeze_strip_title (a g : str) (c : ascii) (t : str) :
  token a -> whitespace g -> is_space c = false ->
  squeeze false (strip (a ++ g ++ c :: t))
  = a ++ " " :: squeeze false (strip (c :: t)).
Proof.
  intros Ha Hg Hc.
  assert (Hstrip : strip (c :: t) = c :: rstrip t)
    by (unfold strip; simpl; rewrite Hc; now apply rstrip_cons).
  assert (E : strip (a ++ g ++ c :: t) = a ++ g ++ strip (c :: t)).
  { unfold strip at 1. destruct Ha as [Hne Ha].
    destruct a as [|x a]; [easy|]. inversion Ha as [|? ? Hx _]; subst.
    simpl. rewrite Hx. change (x :: a ++ g ++ c :: t)
      with ((x :: a) ++ g ++ c :: t).
    rewrite app_assoc, rstrip_app, <- app_assoc.
    - now rewrite Hstrip, rstrip_cons.
    - now rewrite rstrip_cons. }
  rewrite E, Hstrip, squeeze_token by trivial. f_equal.
  destruct (whitespace_first Hg) as (x & g' & -> & Hx).
  destruct Hg as [_ Hg]. inversion Hg; subst.
  simpl. rewrite Hx. f_equal.
  rewrite squeeze_spaces by trivial. simpl. now rewrite Hc.
Qed.

Lemma run_cat_In (r1 r2 : regex) (st st1 st2 : mstate) :
  In st1 (run r1 st) -> In st2 (run r2 st1) -> In st2 (run (r1 ;; r2) st).
Proof. intros H1 H2. simpl. apply in_flat_map. eauto. Qed.

Lemma run_alts_In (rs : list regex) (r : regex) (st st' : mstate) :
  In r rs -> In st' (run r st) -> In st' (run (alts rs) st).
Proof.
  induction rs as [|r0 rs IH]; intros Hin H; [easy|].
  destruct rs as [|r1 rs].
  - destruct Hin as [-> | []]. exact H.
  - change (alts (r0 :: r1 :: rs)) with (Alt r0 (alts (r1 :: rs))).
    cbn [run]. apply in_or_app. destruct Hin as [-> | Hin]; auto.
Qed.

Lemma run_word_i_In (h w rest bef : str) (cp : option str) :
  same_ci w h ->
  In (MState (rev w ++ bef) rest cp)
     (run (word_i h) (MState bef (w ++ rest) cp)).
Proof.
  unfold same_ci. revert w bef.
  induction h as [|x h IH]; intros [|y w] bef H; try discriminate.
  - now left.
  - injection H as Hxy H. cbn [word_i]. eapply run_cat_In.
    + unfold chr_i. cbn [run after app]. rewrite Hxy, Ascii.eqb_refl.
      now left.
    + cbn [before cap rev]. rewrite <- app_assoc. now apply IH.
Qed.

Lemma iterate_In_once (step : mstate -> list mstate) (fuel : nat)
  (st st' : mstate) :
  In st' (step st) -> In st' (iterate step fuel st).
Proof.
  intros H. rewrite iterate_eq. apply in_flat_map. exists st'.
  split; trivial. apply in_or_app. right. now left.
Qed.

(** The titles pattern matches at the start of a title, a space and more. *)
Lemma titles_match (h h' rest : str) :
  In h honorifics -> same_ci h' h ->
  exists m, exec titles [] (h' ++ " " :: rest) = Some m.
Proof.
  intros Hin Hci.
  assert (H : exists m,
    In m (run titles (MState [] (h' ++ " " :: rest) None))).
  { eexists. unfold titles. eapply run_cat_In; [now left|].
    eapply run_cat_In.
    - cbn [run]. apply in_map. eapply run_alts_In.
      + apply in_map. exact Hin.
      + apply run_word_i_In. exact Hci.
    - cbn [run]. apply iterate_In_once. now left. }
  destruct H as (m & H). unfold exec.
  destruct (run titles _) as [|m0 l]; [easy|]. now exists m0.
Qed.

Lemma matches_alts (rs : list regex) (w : str) :
  matches (alts rs) w -> exists r, In r rs /\ matches r w.
Proof.
  induction rs as [|r0 rs IH]; intros H.
  - apply matches_chr in H. now destruct H as (c & _ & H).
  - destruct rs as [|r1 rs].
    + exists r0. split; [now left | exact H].
    + change (alts (r0 :: r1 :: rs)) with (Alt r0 (alts (r1 :: rs))) in H.
      inversion H; subst.
      * exists r0. split; [now left | trivial].
      * destruct IH as (r & Hr & Hw); trivial. exists r. split; trivial.
        now right.
Qed.

Lemma matches_word_i (h w : str) : matches (word_i h) w -> same_ci w h.
Proof.
  unfold same_ci. revert w. induction h as [|x h IH]; intros w H; simpl in H.
  - now inversion H.
  - apply matches_cat in H. destruct H as (w1 & w2 & -> & H1 & H2).
    apply matches_chr in H1. destruct H1 as (c & -> & Hc).
    apply Ascii.eqb_eq in Hc. simpl. now rewrite Hc, (IH _ H2).
Qed.

Lemma token_prefix_unique (a b : str) (x y : ascii) (r r' : str) :
  Forall (fun c => is_space c = false) a ->
  Forall (fun c => is_space c = false) b ->
  is_space x = true -> is_space y = true ->
  a ++ x :: r = b ++ y :: r' -> a = b /\ x :: r = y :: r'.
Proof.
  intros Ha. revert b. induction Ha as [|z a Hz _ IH]; intros b Hb Hx Hy E.
  - destruct b as [|z b]; [now split|].
    inversion Hb; subst. injection E as -> _. congruence.
  - destruct b as [|z' b].
    + injection E as -> _. congruence.
    + inversion Hb; subst. injection E as -> E.
      destruct (IH b) with (1 := H2) (2 := Hx) (3 := Hy) (4 := E) as [-> ?].
      now split.
Qed.

(** What the titles pattern matches there is the title and the space. *)
Lemma titles_match_after (h h' : str) (c : ascii) (rest : str) (m : mstate) :
  In h honorifics -> same_ci h' h -> is_space c = false ->
  exec titles [] (h' ++ " " :: c :: rest) = Some m ->
  exists w, moved (MState [] (h' ++ " " :: c :: rest) None) m w /\
            w <> [] /\ after m = c :: rest.
Proof.
  intros Hin Hci Hc E. apply exec_In in E.
  destruct (run_sound _ _ _ E) as (w & Hm & Hw). exists w. split; trivial.
  unfold titles in Hw.
  apply matches_cat in Hw. destruct Hw as (w0 & w' & -> & H0 & Hw).
  inversion H0; subst. clear H0.
  apply matches_cat in Hw. destruct Hw as (w1 & w2 & -> & H1 & H2).
  apply matches_group, matches_alts in H1. destruct H1 as (r & Hr & Hw1).
  apply in_map_iff in Hr. destruct Hr as (l & <- & Hl).
  apply matches_word_i in Hw1.
  apply matches_plus_chr in H2.
  destruct (whitespace_first H2) as (x & g & -> & Hx).
  split; [now destruct w1|].
  destruct Hm as [Ha _]. cbn [after app] in Ha.
  rewrite <- app_assoc in Ha. cbn [app] in Ha.
  apply token_prefix_unique in Ha; trivial.
  - destruct Ha as [_ Ha]. injection Ha as _ Ha.
    destruct g as [|y g]; [now simpl in Ha|].
    destruct H2 as [_ H2]. inversion H2 as [|? ? _ H2']; subst.
    inversion H2' as [|? ? Hy _]; subst.
    injection Ha as -> _. congruence.
  - exact (proj2 (same_ci_token Hci (honorifics_tokens Hin))).
  - exact (proj2 (same_ci_token Hw1 (honorifics_tokens Hl))).
Qed.

(** C4, as stated, fails: the full stop of a title is not optional.
    "Dr" without it and "Sir" with it are left in place; and a title with
    nothing but whitespace after it is kept. *)
Lemma title_full_stop_not_optional :
  clean_name (lit "Dr Jane Smith") = lit "Dr Jane Smith" /\
  clean_name (lit "Sir. John Smith") = lit "Sir. John Smith" /\
  clean_name (lit "Dr. Jane Smith") = lit "Jane Smith" /\
  clean_name (lit "Sir John Smith") = lit "John Smith" /\
  clean_name (lit "Dr. ") = lit "Dr.".
Proof. vm_compute. repeat split. Qed.

(** C4, amended. When the string begins with one of the titles Mr., Mrs.,
    Ms., Dr., Prof., Sir, Dame, Lord, Lady, written as listed (the full
    stop where the list has one and only there) in any case of letters, and
    whitespace and further text follow, clean_name removes the title and
    that whitespace and nothing else at the start: the result is the rest,
    with its whitespace tidied and its suffix removed, so a second title is
    kept. *)
Theorem clean_name_strips_one_title
  (h h' g : str) (c : ascii) (t : str) :
  In h honorifics -> same_ci h' h -> whitespace g -> is_space c = false ->
  clean_name (h' ++ g ++ c :: t)
  = sub suffixes [] (sub spaces_re (lit " ") (strip (c :: t))).
Proof.
  intros Hin Hci Hg Hc. unfold clean_name. f_equal.
  unfold sub at 2 3. rewrite !sub_spaces_squeeze.
  rewrite squeeze_strip_title; trivial;
    [|exact (same_ci_token Hci (honorifics_tokens Hin))].
  assert (Hrest : exists r, squeeze false (strip (c :: t)) = c :: r).
  { unfold strip. simpl. rewrite Hc, rstrip_cons by trivial.
    simpl. rewrite Hc. eauto. }
  destruct Hrest as (r & ->).
  destruct (titles_match (c :: r) Hin Hci) as (m & E).
  destruct (@titles_match_after _ _ _ _ _ Hin Hci Hc E)
    as (w & Hm & Hw & Ha).
  transitivity (after m); [|exact Ha].
  exact (@sub_bol_some _ [] _ _ _ E Hm Hw).
Qed.

Lemma clean_name_strips_one_title_witness :
  clean_name (lit "dR." ++ lit "  " ++ "M" :: lit "r. John Smith Jr.")
  = sub suffixes []
      (sub spaces_re (lit " ") (strip ("M" :: lit "r. John Smith Jr."))).
Proof.
  apply (@clean_name_strips_one_title (lit "Dr.") (lit "dR.") (lit "  ")
           "M" (lit "r. John Smith Jr.")).
  - simpl. tauto.
  - reflexivity.
  - split; [discriminate | repeat constructor].
  - reflexivity.
Defined.

(** * Further properties of the scripts *)

(** ** unique and the stage after the validator *)

Lemma fromkeys_cons (x : str) (l d : list str) :
  fold_left dict_set l (x :: d)
  = x :: fold_left dict_set (filter (fun y => negb (str_eqb y x)) l) d.
Proof.
  revert d. induction l as [|k l IH]; intros d; simpl; trivial.
  unfold dict_set at 2. cbn [mem existsb]. fold (mem k d).
  destruct (str_eqb k x) eqn:E; cbn [orb negb].
  - apply IH.
  - cbn [fold_left]. rewrite <- IH. f_equal.
    unfold dict_set. now destruct (mem k d).
Qed.

Lemma filter_other_notin (x : str) (l : list str) :
  ~ In x l -> filter (fun y => negb (str_eqb y x)) l = l.
Proof.
  induction l as [|y l IH]; intros H; simpl; trivial.
  destruct (str_eqb y x) eqn:E.
  - apply str_eqb_eq in E. subst. exfalso. apply H. now left.
  - simpl. f_equal. apply IH. intros Hin. apply H. now right.
Qed.

Lemma unique_nodup_id (l : list str) : NoDup l -> unique l = l.
Proof.
  unfold unique. induction 1 as [|x l Hx _ IH]; trivial.
  change (fold_left dict_set (x :: l) []) with (fold_left dict_set l [x]).
  now rewrite fromkeys_cons, filter_other_notin, IH.
Qed.

(** X1. [unique] keeps the first occurrence of every string, in the order
    of the list: the head stays first and its later copies are dropped.
    A list without repetition is returned as it is, and [unique] applied
    twice is [unique]. *)
Theorem unique_keeps_first_occurrences (x : str) (l : list str) :
  unique (x :: l) = x :: unique (filter (fun y => negb (str_eqb y x)) l) /\
  (NoDup l -> unique l = l) /\
  unique (unique l) = unique l.
Proof.
  repeat split.
  - apply (fromkeys_cons x l []).
  - apply unique_nodup_id.
  - apply unique_nodup_id, unique_NoDup.
Qed.

Lemma unique_keeps_first_occurrences_witness :
  unique [lit "b"; lit "a"; lit "c"] = [lit "b"; lit "a"; lit "c"].
Proof.
  apply (proj1 (proj2 (unique_keeps_first_occurrences
                         (lit "z") [lit "b"; lit "a"; lit "c"]))).
  repeat constructor; simpl; intuition discriminate.
Defined.

Lemma sorted_unique_In (l : list str) (x : str) :
  In x (sorted (unique l)) <-> In x l.
Proof.
  rewrite <- (unique_In l x). split; apply Permutation_in;
    [symmetry|]; apply sorted_perm.
Qed.

Lemma sorted_unique_eq (l1 l2 : list str) :
  (forall x, In x l1 <-> In x l2) ->
  sorted (unique l1) = sorted (unique l2).
Proof.
  intros H. apply sorted_perm_eq, NoDup_Permutation; try apply unique_NoDup.
  intros x. now rewrite !unique_In.
Qed.

Lemma pipeline_app (generate : str -> list str) (valid : str -> bool)
  (pages more : list str) :
  pipeline generate valid (pages ++ more)
  = sorted (unique (pipeline generate valid pages
                    ++ pipeline generate valid more)).
Proof.
  unfold pipeline at 1. apply sorted_unique_eq. intros x.
  rewrite in_app_iff. unfold pipeline.
  rewrite !sorted_unique_In, !filter_In, !in_map_iff.
  unfold flatten. rewrite map_app, concat_app.
  split.
  - intros [(c & E & Hc) Hv]. apply in_app_iff in Hc.
    destruct Hc; [left | right]; eauto.
  - intros [[(c & E & Hc) Hv] | [(c & E & Hc) Hv]]; split; trivial;
      exists c; split; trivial; apply in_app_iff; auto.
Qed.

Lemma pipeline_again (generate : str -> list str) (valid : str -> bool)
  (pages : list str) :
  sorted (unique (pipeline generate valid pages))
  = pipeline generate valid pages.
Proof.
  rewrite unique_nodup_id by apply pipeline_NoDup.
  apply ordered_perm_eq;
    [apply sorted_ordered | apply pipeline_ordered |].
  symmetry. apply sorted_perm.
Qed.

(** X2. The pages can be processed in two batches: the result for
    [pages ++ more] is the sorted, deduplicated union of the two results,
    for either script; and sorting and deduplicating a result again changes
    nothing. *)
Theorem result_of_batches
  (extract_entities : str -> list str) (pages more : list str) :
  let loose := ExtractNames.extract_names_from_pdf extract_entities in
  let strict := ExtractNamesSimple.extract_names_from_pdf in
  loose (pages ++ more) = sorted (unique (loose pages ++ loose more)) /\
  strict (pages ++ more) = sorted (unique (strict pages ++ strict more)) /\
  sorted (unique (loose pages)) = loose pages /\
  sorted (unique (strict pages)) = strict pages.
Proof.
  cbv zeta. rewrite loose_is_pipeline, strict_is_pipeline.
  repeat split; auto using pipeline_app, pipeline_again.
Qed.

(** ** Where the candidates come from *)

Lemma run_text_of (r : regex) (st st' : mstate) :
  In st' (run r st) -> text_of st' = text_of st.
Proof.
  intros H. destruct (run_sound _ _ _ H) as (w & [Ha Hb] & _).
  unfold text_of. now rewrite Hb, Ha, rev_app_distr, rev_involutive, app_assoc.
Qed.

Lemma cap_in_text_keep (st st' : mstate) :
  text_of st' = text_of st -> cap st' = cap st ->
  cap_in_text st -> cap_in_text st'.
Proof. unfold cap_in_text. intros -> ->. trivial. Qed.

Lemma run_cap_in_text (r : regex) (st st' : mstate) :
  In st' (run r st) -> cap_in_text st -> cap_in_text st'.
Proof.
  revert st st'.
  induction r as [|p|r1 IH1 r2 IH2|r1 IH1 r2 IH2|r1 IH1|r1 IH1|r1 IH1| | |];
    intros st st' H Hst; pose proof (run_text_of _ _ _ H) as Htext;
    simpl in H.
  - now destruct H as [<- | []].
  - destruct (after st) as [|c t]; [easy|]. destruct (p c); [|easy].
    destruct H as [<- | []]. now apply cap_in_text_keep with (st := st).
  - apply in_flat_map in H. destruct H as (st1 & H1 & H2). eauto.
  - apply in_app_iff in H. destruct H; eauto.
  - revert H. apply (iterate_inv cap_in_text); trivial.
    intros s s' Hs Hin. eauto.
  - apply in_app_iff in H. destruct H as [H | [<- | []]]; eauto.
  - apply in_map_iff in H. destruct H as (st1 & <- & H).
    destruct (run_sound _ _ _ H) as (w & Hm & _).
    intros w' Hw'. cbn [cap] in Hw'. injection Hw' as <-.
    rewrite (moved_consumed Hm). destruct Hm as [Ha Hb].
    exists (rev (before st)), (after st1).
    unfold text_of. cbn [before after].
    now rewrite Hb, rev_app_distr, rev_involutive, app_assoc.
  - destruct (xorb _ _); [|easy]. now destruct H as [<- | []].
  - destruct (before st); [|easy]. now destruct H as [<- | []].
  - destruct (at_end st); [|easy]. now destruct H as [<- | []].
Qed.

(** Every string reported by [findall] is the capture of a match at some
    position of the text. *)
Lemma findall_from_In_at (r : regex) (x : str) (aft bef : str) (skip : nat) :
  In x (findall_from r bef aft skip) ->
  exists b a m,
    exec r b a = Some m /\ x = group1 m /\ rev b ++ a = rev bef ++ aft.
Proof.
  revert bef skip. induction aft as [|c t IH]; intros bef skip H.
  - destruct skip; simpl in H; [|easy].
    destruct (exec r bef []) as [m|] eqn:E; [|easy].
    destruct H as [<- | []]. now exists bef, [], m.
  - assert (Hnext : forall n, In x (findall_from r (c :: bef) t n) ->
              exists b a m, exec r b a = Some m /\ x = group1 m /\
                            rev b ++ a = rev bef ++ c :: t).
    { intros n Hn. destruct (IH _ _ Hn) as (b & a & m & E & Hx & Ht).
      exists b, a, m. repeat split; trivial.
      rewrite Ht. simpl. now rewrite <- app_assoc. }
    destruct skip; simpl in H; [|eauto].
    destruct (exec r bef (c :: t)) as [m|] eqn:E; [|eauto].
    destruct H as [<- | H]; [|eauto]. now exists bef, (c :: t), m.
Qed.

Lemma findall_substrings (r : regex) (text : str) :
  Forall (fun x => substring x text) (findall r text).
Proof.
  apply Forall_forall. intros x Hx.
  apply findall_from_In_at in Hx. destruct Hx as (b & a & m & E & -> & Ht).
  simpl in Ht. apply exec_In in E.
  pose proof (run_text_of _ _ _ E) as Htext.
  assert (Hcap : cap_in_text m)
    by (apply (@run_cap_in_text _ _ _ E); intros w; discriminate).
  unfold text_of in Htext. cbn [before after] in Htext.
  unfold group1. destruct (cap m) as [w|] eqn:Ec.
  - rewrite <- Ht, <- Htext. now apply Hcap.
  - exists [], text. reflexivity.
Qed.

Lemma substring_In (w text : str) (c : ascii) :
  substring w text -> In c w -> In c text.
Proof.
  intros (pre & post & ->) H. apply in_or_app. right.
  apply in_or_app. now left.
Qed.

(** X3. Every candidate of extract_potential_names is a run of consecutive
    characters of the text; a text without a capital letter A-Z (the empty
    text, say) has no candidate. *)
Theorem candidates_are_substrings (text : str) :
  Forall (fun c => substring c text) (extract_potential_names text) /\
  (Forall (fun c => range "A" "Z" c = false) text ->
   extract_potential_names text = []).
Proof.
  assert (Hsub : Forall (fun c => substring c text)
                        (extract_potential_names text)).
  { unfold extract_potential_names. apply Forall_app.
    split; apply findall_substrings. }
  split; trivial. intros Hno.
  pose proof (candidates_match text) as Hm.
  destruct (extract_potential_names text) as [|c l]; trivial. exfalso.
  inversion Hsub as [|? ? Hc _]; subst. inversion Hm as [|? ? Hw _]; subst.
  apply name_body_shape in Hw.
  destruct Hw as (first & middle & rest & -> & Hfirst & _).
  destruct Hfirst as (x & cs & -> & Hx & _).
  assert (Hin : In x text) by (eapply substring_In; [exact Hc | now left]).
  rewrite Forall_forall in Hno. specialize (Hno _ Hin).
  unfold capital_letter in Hx. congruence.
Qed.

Lemma candidates_are_substrings_witness :
  extract_potential_names (lit "no names on this page.") = [].
Proof.
  apply (candidates_are_substrings (lit "no names on this page.")).
  repeat constructor.
Defined.

(** ** The form of a cleaned name *)

Lemma tidy_join (s cur : str) (b : bool) :
  tidy_from b s = true ->
  (b = true -> cur = []) -> (b = false -> cur <> []) ->
  join (lit " ") (split_from cur s) = rev cur ++ s.
Proof.
  change (lit " ") with [" "].
  revert cur b. induction s as [|c t IH]; intros cur b H Hb Hb'.
  - simpl in H. destruct b; [discriminate|].
    destruct cur as [|x cur]; [now destruct Hb'|].
    cbn [split_from join]. now rewrite app_nil_r.
  - cbn [tidy_from split_from] in *. destruct (is_space c) eqn:Ec.
    + apply andb_true_iff in H. destruct H as [H Ht].
      apply andb_true_iff in H. destruct H as [Hc Hnb].
      apply Ascii.eqb_eq in Hc. subst c. destruct b; [discriminate|].
      destruct cur as [|x cur]; [now destruct Hb'|].
      pose proof (IH [] true Ht (fun _ => eq_refl)) as Hj.
      simpl in Hj. specialize (Hj ltac:(discriminate)).
      destruct (split_from [] t) as [|y l] eqn:El.
      * simpl in Hj. subst t. discriminate.
      * cbn [join]. cbn [join] in Hj. now rewrite Hj.
    + rewrite (IH (c :: cur) false H); try discriminate.
      simpl. now rewrite <- app_assoc.
Qed.

Lemma tidy_strip (n : str) : tidy n -> strip n = n.
Proof.
  intros [-> | H]; [reflexivity|].
  destruct (@tidy_head _ H) as (c & t & -> & Hc & Ht).
  unfold strip. simpl. rewrite Hc.
  destruct (@tidy_last _ _ H) as (init & x & E & Hx); [easy|].
  rewrite E. unfold rstrip. rewrite rev_app_distr. simpl.
  rewrite Hx. simpl. now rewrite rev_involutive.
Qed.

Lemma squeeze_length (s : str) (b : bool) :
  length (squeeze b s) <= length s.
Proof.
  revert b. induction s as [|c t IH]; intros b; simpl; trivial.
  destruct (is_space c), b; simpl;
    try (specialize (IH true); lia); specialize (IH false); lia.
Qed.

Lemma strip_length (s : str) : length (strip s) <= length s.
Proof.
  unfold strip, rstrip. rewrite length_rev.
  pose proof (lstrip_length (rev (lstrip s))) as H1.
  pose proof (lstrip_length s) as H2. rewrite length_rev in H1. lia.
Qed.

Lemma titles_length (n : str) : length (sub titles [] n) <= length n.
Proof.
  unfold titles.
  destruct (exec (Bol;; Group (alts (map word_i honorifics));; Plus ws) [] n)
    as [m|] eqn:E.
  - destruct (run_sound _ _ _ (exec_In _ _ _ E)) as (w & Hm & Hw).
    pose proof Hw as Hw'. apply matches_titles in Hw'.
    destruct Hw' as (w' & c & Ew & _).
    rewrite (@sub_bol_some _ [] _ _ _ E Hm) by (subst w; now destruct w').
    destruct Hm as [Ha _]. cbn [after] in Ha.
    rewrite Ha, !length_app. simpl. lia.
  - now rewrite sub_bol_none.
Qed.

Lemma suffixes_length (n : str) :
  tidy n -> length (sub suffixes [] n) <= length n.
Proof.
  intros [-> | Hn]; [reflexivity|].
  destruct (sub_suffixes_shape n [] (tidy_no_newline _ _ Hn))
    as [E | (pre & c & w & E & Hc & E')]; unfold sub.
  - now rewrite E.
  - rewrite E', E, length_app. lia.
Qed.

Lemma clean_name_join (name : str) :
  join (lit " ") (split (clean_name name)) = clean_name name.
Proof.
  destruct (clean_name_tidy name) as [-> | Ht]; [reflexivity|].
  unfold split.
  rewrite (@tidy_join _ [] _ Ht); [reflexivity | trivial | discriminate].
Qed.

(** X4. A cleaned name has no whitespace at its ends and exactly one
    space between its parts (joining its parts with a space gives it back),
    and it is never longer than the string it was made from. *)
Theorem clean_name_form (name : str) :
  let s := clean_name name in
  strip s = s /\ join (lit " ") (split s) = s /\ length s <= length name.
Proof.
  cbv zeta. pose proof (clean_name_tidy name) as Ht. repeat split.
  - now apply tidy_strip.
  - apply clean_name_join.
  - unfold clean_name.
    set (n1 := sub spaces_re (lit " ") (strip name)).
    assert (H1 : tidy n1 /\ length n1 <= length name).
    { unfold n1, sub. rewrite sub_spaces_squeeze. split.
      - apply tidy_strip_squeeze.
      - pose proof (squeeze_length (strip name) false).
        pose proof (strip_length name). lia. }
    destruct H1 as [Ht1 Hl1].
    pose proof (titles_tidy Ht1) as Ht2.
    pose proof (titles_length n1) as Hl2.
    pose proof (suffixes_length Ht2) as Hl3. lia.
Qed.

Lemma split_from_no_space (s cur : str) :
  Forall (fun c => is_space c = false) cur ->
  Forall (Forall (fun c => is_space c = false)) (split_from cur s).
Proof.
  revert cur. induction s as [|c t IH]; intros cur Hcur; simpl.
  - destruct cur; repeat constructor. now apply Forall_rev.
  - destruct (is_space c) eqn:Ec.
    + destruct cur; [now apply IH|].
      constructor; [now apply Forall_rev | now apply IH].
    + apply IH. now constructor.
Qed.

(** A tidy string with a space in it has two parts or more. *)
Lemma tidy_two_parts (n : str) :
  tidy n -> In " " n -> 2 <= length (split n).
Proof.
  intros Ht Hin.
  assert (Hj : join (lit " ") (split n) = n).
  { destruct Ht as [-> | Ht]; [reflexivity|].
    unfold split.
    rewrite (@tidy_join _ [] _ Ht); [reflexivity | trivial | discriminate]. }
  pose proof (split_from_no_space n (Forall_nil _)) as Hs.
  fold (split n) in Hs.
  destruct (split n) as [|a [|b l]]; simpl in *; try lia.
  - now subst n.
  - subst n. inversion Hs as [|? ? Ha _]; subst.
    rewrite Forall_forall in Ha. specialize (Ha _ Hin). discriminate.
Qed.

Lemma all_capitalised_true (parts : list str) :
  all_capitalised parts = Ok true ->
  Forall (fun part => forall c, hd_error part = Some c ->
                                is_alpha c = true -> is_upper c = true) parts.
Proof.
  induction parts as [|part rest IH]; intros H; constructor.
  - intros c Hc Ha. destruct part as [|c' part]; [discriminate|].
    injection Hc as ->. simpl in H. rewrite Ha in H. simpl in H.
    now destruct (is_upper c).
  - apply IH. destruct part as [|c part]; simpl in H; trivial.
    destruct (is_alpha c); simpl in H; trivial.
    now destruct (is_upper c).
Qed.

Lemma strict_valid_parts (name : str) :
  ExtractNamesSimple.is_valid_name name = true ->
  2 <= length (split name) <= 4 /\
  Forall (fun part => forall c, hd_error part = Some c ->
                                is_alpha c = true -> is_upper c = true)
         (split name) /\
  ~ In name false_positives.
Proof.
  unfold ExtractNamesSimple.is_valid_name, is_valid_name_r.
  destruct (Nat.ltb _ 3); [discriminate|].
  destruct (negb _); [discriminate|].
  destruct (Nat.ltb_spec (length (split name)) 2);
    [discriminate|].
  destruct (Nat.ltb_spec 4 (length (split name)));
    [discriminate|]. cbn [orb].
  destruct (all_capitalised (split name)) as [b|] eqn:E; [|discriminate].
  destruct b; cbn [bind negb]; [|discriminate].
  destruct (mem name false_positives) eqn:Em; [discriminate|].
  intros _. repeat split; try lia.
  - now apply all_capitalised_true.
  - intros Hin. apply mem_In in Hin. congruence.
Qed.

(** X5. The names that the scripts return are made of parts separated by
    one space.  The script with the language model returns names of two
    parts or more; the pattern script returns names of two to four parts
    that are not in its list of false positives and whose parts, when they
    begin with a letter, begin with a capital. *)
Theorem result_names_have_parts
  (extract_entities : str -> list str) (pages : list str) :
  Forall (fun x => join (lit " ") (split x) = x /\ 2 <= length (split x))
         (ExtractNames.extract_names_from_pdf extract_entities pages) /\
  Forall (fun x =>
            join (lit " ") (split x) = x /\
            2 <= length (split x) <= 4 /\
            Forall (fun part => forall c, hd_error part = Some c ->
                      is_alpha c = true -> is_upper c = true) (split x) /\
            ~ In x false_positives)
         (ExtractNamesSimple.extract_names_from_pdf pages).
Proof.
  rewrite loose_is_pipeline, strict_is_pipeline.
  split; apply Forall_forall; intros x Hx; apply pipeline_In in Hx;
    destruct Hx as (Hv & page & c & _ & _ & ->);
    (split; [apply clean_name_join|]).
  - apply tidy_two_parts; [apply clean_name_tidy|].
    unfold ExtractNames.is_valid_name in Hv.
    destruct (Nat.ltb _ 2); [discriminate|].
    destruct (one_of (clean_name c) " ") eqn:E; [|discriminate].
    unfold one_of in E. apply existsb_exists in E.
    destruct E as (y & Hy & E). apply Ascii.eqb_eq in E. now subst.
  - now apply strict_valid_parts.
Qed.

(** ** A suffix at the end *)

Lemma suffix_words_tokens (h : str) : In h suffix_words -> token h.
Proof.
  intros H. simpl in H.
  repeat (destruct H as [<- | H]; [split; [easy | now repeat constructor]|]).
  easy.
Qed.

Lemma tidy_space_then (b : bool) (x y : ascii) (rest : str) :
  tidy_from b (x :: y :: rest) = true -> is_space x = true ->
  is_space y = false.
Proof.
  intros H Hx. cbn [tidy_from] in H. rewrite Hx in H.
  destruct (is_space y); trivial.
  rewrite !andb_false_r in H. discriminate.
Qed.

(** What the suffixes pattern matches in a tidy text reaches its end and
    is whitespace and then a listed suffix. *)
Lemma suffixes_match_all (bef text : str) (b : bool) (m : mstate) :
  tidy_from b text = true -> exec suffixes bef text = Some m ->
  before m = rev text ++ bef /\
  exists g l w, text = g ++ w /\ whitespace g /\
                In l suffix_words /\ same_ci w l.
Proof.
  intros Ht E. pose proof (exec_In _ _ _ E) as Hin.
  destruct (run_sound _ _ _ Hin) as (w & [Ha Hb] & Hw).
  cbn [after before] in Ha, Hb.
  assert (Hend : after m = []).
  { apply at_end_nil.
    - now apply (run_ends_with_eol suffixes _ _ eq_refl Hin).
    - intros Hc. apply (tidy_no_newline _ _ Ht). rewrite Ha.
      apply in_or_app. now right. }
  rewrite Hend, app_nil_r in Ha. subst w. split; trivial.
  unfold suffixes in Hw.
  apply matches_cat in Hw. destruct Hw as (g & w' & -> & Hg & Hw).
  apply matches_cat in Hw. destruct Hw as (w1 & w0 & -> & H1 & H0).
  inversion H0; subst. clear H0.
  apply matches_group, matches_alts in H1. destruct H1 as (r & Hr & H1).
  apply in_map_iff in Hr. destruct Hr as (l & <- & Hl).
  apply matches_word_i in H1. apply matches_plus_chr in Hg.
  exists g, l, w1. rewrite app_nil_r. auto.
Qed.

(** The suffixes pattern matches a space and a listed suffix at the end. *)
Lemma suffixes_match (bef sfx sfx' : str) :
  In sfx suffix_words -> same_ci sfx' sfx ->
  exists m, exec suffixes bef (" " :: sfx') = Some m.
Proof.
  intros Hin Hci.
  assert (H : exists m,
    In m (run suffixes (MState bef (" " :: sfx') None))).
  { rewrite <- (app_nil_r sfx'). eexists. unfold suffixes.
    eapply run_cat_In.
    - cbn [run]. apply iterate_In_once. now left.
    - eapply run_cat_In.
      + cbn [run]. apply in_map. eapply run_alts_In.
        * apply in_map. exact Hin.
        * apply run_word_i_In. exact Hci.
      + now left. }
  destruct H as (m & H). unfold exec.
  destruct (run suffixes _) as [|m0 l]; [easy|]. now exists m0.
Qed.

Lemma sub_suffixes_exact (pre bef : str) (b : bool) (sfx sfx' : str) :
  In sfx suffix_words -> same_ci sfx' sfx ->
  tidy_from b (pre ++ " " :: sfx') = true ->
  sub_from suffixes [] bef (pre ++ " " :: sfx') 0 = pre.
Proof.
  intros Hin Hci. revert bef b.
  induction pre as [|x pre IH]; intros bef b Ht; cbn [app sub_from].
  - destruct (suffixes_match bef Hin Hci) as (m & E). rewrite E.
    destruct (@suffixes_match_all _ _ _ _ Ht E) as [Hb _].
    unfold width. rewrite Hb, length_app, length_rev. cbn [length app].
    replace (S (length sfx') + length bef - length bef)
      with (S (length sfx')) by lia.
    rewrite <- (app_nil_r sfx') at 1. rewrite sub_from_skip.
    cbn [sub_from]. now rewrite exec_suffixes_nil.
  - destruct (exec suffixes bef (x :: pre ++ " " :: sfx')) as [m|] eqn:E.
    + exfalso.
      destruct (@suffixes_match_all _ _ _ _ Ht E)
        as [_ (g & l & w & Etext & Hg & Hl & Hw)].
      destruct (whitespace_last Hg) as (g' & y & -> & Hy).
      apply (f_equal (@rev _)) in Etext.
      change (x :: pre ++ " " :: sfx') with ((x :: pre) ++ " " :: sfx')
        in Etext.
      rewrite !rev_app_distr in Etext. cbn [rev app] in Etext.
      rewrite <- !app_assoc in Etext. cbn [app] in Etext.
      apply token_prefix_unique in Etext; trivial.
      * destruct Etext as [_ Etext]. injection Etext as _ Etext.
        apply (f_equal (@rev _)) in Etext.
        rewrite rev_app_distr, !rev_involutive in Etext.
        cbn [rev app] in Etext.
        destruct Hg as [_ Hg]. apply Forall_app in Hg.
        destruct Hg as [Hg' _]. rewrite <- Etext in Hg'.
        inversion Hg' as [|? ? Hx Hpre]; subst.
        destruct pre as [|z pre].
        -- pose proof (@tidy_space_then _ _ _ _ Ht Hx) as Hf.
           vm_compute in Hf. discriminate.
        -- inversion Hpre as [|? ? Hz _]; subst.
           cbn [app] in Ht.
           pose proof (@tidy_space_then _ _ _ _ Ht Hx) as Hf. congruence.
      * apply Forall_rev.
        exact (proj2 (same_ci_token Hci (suffix_words_tokens Hin))).
      * apply Forall_rev.
        exact (proj2 (same_ci_token Hw (suffix_words_tokens Hl))).
    + f_equal. cbn [app tidy_from] in Ht. destruct (is_space x).
      * apply andb_true_iff in Ht. destruct Ht as [_ Ht]. eauto.
      * eauto.
Qed.

(** X6. When, after the whitespace and title steps, the name ends with a
    space and one of the suffixes Jr., Sr., III, II, IV, PhD, MD, Esq. in
    any case of letters, clean_name returns what comes before that space;
    only this last suffix is removed. *)
Theorem clean_name_strips_one_suffix (name pre sfx sfx' : str) :
  In sfx suffix_words -> same_ci sfx' sfx ->
  sub titles [] (sub spaces_re (lit " ") (strip name)) = pre ++ " " :: sfx' ->
  clean_name name = pre.
Proof.
  intros Hin Hci E. unfold clean_name. rewrite E.
  assert (Ht : tidy (pre ++ " " :: sfx')).
  { rewrite <- E. apply titles_tidy. unfold sub.
    rewrite sub_spaces_squeeze. apply tidy_strip_squeeze. }
  destruct Ht as [Ht | Ht]; [now destruct pre|].
  exact (sub_suffixes_exact pre [] _ Hin Hci Ht).
Qed.

Lemma clean_name_strips_one_suffix_witness :
  clean_name (lit "Dr. John  Smith Jr. iii ") = lit "John Smith Jr.".
Proof.
  apply (@clean_name_strips_one_suffix (lit "Dr. John  Smith Jr. iii ")
           (lit "John Smith Jr.") (lit "III") (lit "iii")).
  - simpl. tauto.
  - reflexivity.
  - vm_compute. reflexivity.
Defined.

(** ** Lines of text files *)

Lemma lstrip_idem (s : str) : lstrip (lstrip s) = lstrip s.
Proof. apply lstrip_fixed, lstrip_head. Qed.

Lemma rstrip_idem (s : str) : rstrip (rstrip s) = rstrip s.
Proof. unfold rstrip. now rewrite rev_involutive, lstrip_idem. Qed.

Lemma strip_idem (s : str) : strip (strip s) = strip s.
Proof.
  unfold strip. pose proof (lstrip_head s) as H.
  destruct (lstrip s) as [|x t]; [reflexivity|].
  rewrite rstrip_cons by trivial. simpl. rewrite H.
  now rewrite rstrip_cons, rstrip_idem.
Qed.

Lemma rstrip_snoc_space (l : str) (c : ascii) :
  is_space c = true -> rstrip (l ++ [c]) = rstrip l.
Proof.
  intros Hc. unfold rstrip. rewrite rev_app_distr. simpl. now rewrite Hc.
Qed.

Lemma strip_snoc_space (l : str) (c : ascii) :
  is_space c = true -> strip (l ++ [c]) = strip l.
Proof.
  intros Hc. unfold strip.
  induction l as [|x l IH]; simpl.
  - now rewrite Hc.
  - destruct (is_space x); trivial.
    change (x :: l ++ [c]) with ((x :: l) ++ [c]).
    now apply rstrip_snoc_space.
Qed.

Lemma line_char_newline (c : ascii) :
  line_char c = true -> Ascii.eqb c newline = false /\
                         Ascii.eqb c carriage_return = false.
Proof.
  unfold line_char. intros H. apply andb_true_iff in H.
  destruct H as [H1 H2]. now apply negb_true_iff in H1, H2.
Qed.

Lemma file_lines_from_line (l s cur : str) :
  Forall (fun c => line_char c = true) l ->
  file_lines_from cur (l ++ s) = file_lines_from (rev l ++ cur) s.
Proof.
  intros H. revert cur. induction H as [|c l Hc _ IH]; intros cur; trivial.
  apply line_char_newline in Hc. destruct Hc as [H1 H2].
  cbn [app file_lines_from]. rewrite H1, H2, IH. cbn [rev].
  now rewrite <- app_assoc.
Qed.

Lemma join_cons (sep a b : str) (rest : list str) :
  join sep (a :: b :: rest) = a ++ sep ++ join sep (b :: rest).
Proof. reflexivity. Qed.

Lemma lines_text_cons (l : str) (rest : list str) :
  DeduplicateNames.lines_text (l :: rest)
  = l ++ newline :: DeduplicateNames.lines_text rest.
Proof.
  unfold DeduplicateNames.lines_text. destruct rest as [|r rest].
  - reflexivity.
  - cbn [join]. now rewrite <- !app_assoc.
Qed.

Lemma file_lines_lines_text (lines : list str) :
  Forall (Forall (fun c => line_char c = true)) lines ->
  file_lines (DeduplicateNames.lines_text lines)
  = map (fun l => l ++ [newline]) lines.
Proof.
  unfold file_lines. induction 1 as [|l lines Hl _ IH]; [reflexivity|].
  rewrite lines_text_cons, file_lines_from_line by trivial.
  cbn [file_lines_from map]. rewrite Ascii.eqb_refl, IH.
  rewrite app_nil_r. cbn [rev]. now rewrite rev_involutive.
Qed.

Lemma file_lines_write_adoc (names : list str) :
  Forall (fun l => l <> [] /\ Forall (fun c => line_char c = true) l) names ->
  map strip (file_lines (write_adoc names)) = map strip names.
Proof.
  unfold file_lines, write_adoc.
  induction 1 as [|l names [Hne Hl] Hnames IH]; [reflexivity|].
  destruct names as [|l' names].
  - cbn [join map]. rewrite <- (app_nil_r l) at 1.
    rewrite file_lines_from_line by trivial. cbn [file_lines_from].
    rewrite app_nil_r.
    destruct (rev l) as [|x r] eqn:E.
    + apply (f_equal (@rev _)) in E. rewrite rev_involutive in E.
      now subst.
    + rewrite <- E. cbn [map]. now rewrite rev_involutive.
  - rewrite join_cons, file_lines_from_line by trivial.
    cbn [app file_lines_from]. rewrite Ascii.eqb_refl.
    cbn [map]. f_equal; [|exact IH].
    rewrite app_nil_r. cbn [rev]. rewrite rev_involutive.
    now apply strip_snoc_space.
Qed.

Lemma truthy_nonempty (l : str) : l <> [] -> truthy l = true.
Proof. now destruct l. Qed.

Lemma map_strip_plain (lines : list str) :
  Forall plain_line lines -> map strip lines = lines.
Proof.
  induction 1 as [|l lines (_ & Hl & _) _ IH]; simpl; congruence.
Qed.

Lemma lines_of_filter (text : str) :
  DeduplicateNames.lines_of text
  = filter truthy (map strip (file_lines text)).
Proof.
  unfold DeduplicateNames.lines_of.
  induction (file_lines text) as [|l ls IH]; simpl; trivial.
  destruct (truthy (strip l)); simpl; now rewrite IH.
Qed.

Lemma filter_truthy_plain (lines : list str) :
  Forall plain_line lines -> filter truthy lines = lines.
Proof.
  induction 1 as [|l lines (Hne & _) _ IH]; simpl; trivial.
  now rewrite truthy_nonempty, IH.
Qed.

Lemma plain_line_chars (lines : list str) :
  Forall plain_line lines ->
  Forall (fun l => l <> [] /\ Forall (fun c => line_char c = true) l) lines.
Proof. apply Forall_impl. intros l (H1 & _ & H3). now split. Qed.

Lemma lines_of_lines_text (lines : list str) :
  Forall plain_line lines ->
  DeduplicateNames.lines_of (DeduplicateNames.lines_text lines) = lines.
Proof.
  intros H. rewrite lines_of_filter, file_lines_lines_text.
  - rewrite map_map.
    rewrite (map_ext _ strip)
      by (intros l; apply strip_snoc_space; reflexivity).
    now rewrite map_strip_plain, filter_truthy_plain.
  - eapply Forall_impl; [|exact H]. now intros l (_ & _ & Hl).
Qed.

Lemma lines_of_write_adoc (names : list str) :
  Forall plain_line names ->
  DeduplicateNames.lines_of (write_adoc names) = names /\
  Cr.lines_from_text (write_adoc names) = names.
Proof.
  intros H. unfold Cr.lines_from_text.
  rewrite lines_of_filter, file_lines_write_adoc
    by now apply plain_line_chars.
  now rewrite map_strip_plain, filter_truthy_plain.
Qed.

(** Every line that the file gives is made of characters that do not end
    a line, with possibly a newline at its end. *)
Lemma file_lines_from_shape (n : nat) (text cur : str) :
  length text <= n -> Forall (fun c => line_char c = true) cur ->
  Forall (fun line => exists body,
            Forall (fun c => line_char c = true) body /\
            (line = body \/ line = body ++ [newline]))
         (file_lines_from cur text).
Proof.
  revert text cur. induction n as [|n IH]; intros text cur Hlen Hcur.
  - destruct text; [|simpl in Hlen; lia]. simpl.
    destruct cur; repeat constructor.
    exists (rev (a :: cur)). split; [now apply Forall_rev | now left].
  - destruct text as [|c t]; simpl.
    + destruct cur; repeat constructor.
      exists (rev (a :: cur)). split; [now apply Forall_rev | now left].
    + assert (Hline : exists body,
                Forall (fun c => line_char c = true) body /\
                (rev cur ++ [newline] = body \/
                 rev cur ++ [newline] = body ++ [newline])).
      { exists (rev cur). split; [now apply Forall_rev | now right]. }
      simpl in Hlen.
      destruct (Ascii.eqb c newline) eqn:E1.
      * constructor; trivial. apply IH; [lia | constructor].
      * destruct (Ascii.eqb c carriage_return) eqn:E2.
        -- constructor; trivial. apply IH; [|constructor].
           destruct t as [|c' t']; simpl in *; [lia|].
           destruct (Ascii.eqb c' newline); simpl; lia.
        -- apply IH; [lia|]. constructor; trivial.
           unfold line_char. now rewrite E1, E2.
Qed.

Lemma lines_of_plain (text : str) :
  Forall plain_line (DeduplicateNames.lines_of text).
Proof.
  rewrite lines_of_filter. apply Forall_forall. intros x Hx.
  apply filter_In in Hx. destruct Hx as [Hx Hne].
  apply in_map_iff in Hx. destruct Hx as (line & <- & Hline).
  pose proof (@file_lines_from_shape _ text [] (le_n _) (Forall_nil _))
    as Hshape.
  rewrite Forall_forall in Hshape.
  destruct (Hshape _ Hline) as (body & Hbody & Hl).
  repeat split.
  - intros E. now rewrite E in Hne.
  - apply strip_idem.
  - destruct Hl as [-> | ->].
    + now apply strip_Forall.
    + rewrite strip_snoc_space by reflexivity. now apply strip_Forall.
Qed.

Lemma not_space_line_char (c : ascii) :
  is_space c = false -> line_char c = true.
Proof. by_cases c. Qed.

Lemma tidy_line_chars (n : str) (b : bool) :
  tidy_from b n = true -> Forall (fun c => line_char c = true) n.
Proof.
  revert b. induction n as [|c t IH]; intros b H; constructor;
    simpl in H; destruct (is_space c) eqn:Ec.
  - apply andb_true_iff in H. destruct H as [H _].
    apply andb_true_iff in H. destruct H as [H _].
    apply Ascii.eqb_eq in H. now subst.
  - now apply not_space_line_char.
  - apply andb_true_iff in H. destruct H as [_ H]. eauto.
  - eauto.
Qed.

Lemma tidy_plain_line (n : str) : tidy n -> n <> [] -> plain_line n.
Proof.
  intros Ht Hne. repeat split; trivial.
  - now apply tidy_strip.
  - destruct Ht as [-> | Ht]; [constructor|]. exact (tidy_line_chars _ _ Ht).
Qed.

Lemma pipeline_plain (generate : str -> list str) (valid : str -> bool)
  (pages : list str) :
  (forall x, valid x = true -> x <> []) ->
  Forall plain_line (pipeline generate valid pages).
Proof.
  intros Hvalid. apply Forall_forall. intros x Hx.
  apply pipeline_In in Hx. destruct Hx as (Hv & page & c & _ & _ & E).
  apply tidy_plain_line; [|now apply Hvalid].
  subst x. apply clean_name_tidy.
Qed.

(** X7. The names file that either script writes is read back, line by
    line, as exactly the list of names: by read_lines of
    deduplicate_names.py and remove_duplicates.py, which drop blank lines,
    and by read_lines_from_file of cr.py. *)
Theorem names_file_read_back
  (extract_entities : str -> list str) (pages : list str) :
  let loose := ExtractNames.extract_names_from_pdf extract_entities pages in
  let strict := ExtractNamesSimple.extract_names_from_pdf pages in
  (DeduplicateNames.lines_of (write_adoc loose) = loose /\
   Cr.lines_from_text (write_adoc loose) = loose) /\
  (DeduplicateNames.lines_of (write_adoc strict) = strict /\
   Cr.lines_from_text (write_adoc strict) = strict).
Proof.
  cbv zeta. rewrite loose_is_pipeline, strict_is_pipeline.
  split; apply lines_of_write_adoc, pipeline_plain; intros x Hx ->;
    discriminate Hx.
Qed.



(** ** deduplicate_names.py and remove_duplicates.py *)

Lemma set_of_unique (l : list str) : set_of l = unique l.
Proof. reflexivity. Qed.

Lemma mem_set_of (x : str) (l : list str) : mem x (set_of l) = mem x l.
Proof.
  rewrite set_of_unique.
  destruct (mem x l) eqn:E.
  - apply mem_In. apply unique_In. now apply mem_In.
  - destruct (mem x (unique l)) eqn:E'; trivial.
    apply mem_In in E'. apply (proj1 (unique_In l x)) in E'.
    apply (proj2 (mem_In x l)) in E'. congruence.
Qed.

Lemma write_file_same (fs : files) (path text : str) :
  write_file fs path text path = Some text.
Proof.
  unfold write_file. now replace (str_eqb path path) with true
    by (symmetry; now apply str_eqb_eq).
Qed.

Lemma write_file_other (fs : files) (path text p : str) :
  p <> path -> write_file fs path text p = fs p.
Proof.
  unfold write_file. intros H. destruct (str_eqb p path) eqn:E; trivial.
  apply str_eqb_eq in E. contradiction.
Qed.

Lemma read_lines_some (fs : files) (path text : str) :
  fs path = Some text ->
  DeduplicateNames.read_lines path fs
  = Returned (DeduplicateNames.lines_of text) fs.
Proof.
  intros H. unfold DeduplicateNames.read_lines, io_bind, read_text, io_ret.
  now rewrite H.
Qed.

Lemma read_lines_none (fs : files) (path : str) :
  fs path = None ->
  DeduplicateNames.read_lines path fs = FileNotFoundError fs.
Proof.
  intros H. unfold DeduplicateNames.read_lines, io_bind, read_text.
  now rewrite H.
Qed.

Lemma filter_plain (f : str -> bool) (lines : list str) :
  Forall plain_line lines -> Forall plain_line (filter f lines).
Proof.
  intros H. apply Forall_forall. intros x Hx. apply filter_In in Hx.
  rewrite Forall_forall in H. now apply H.
Qed.

Lemma filter_filter (A : Type) (f : A -> bool) (l : list A) :
  filter f (filter f l) = filter f l.
Proof.
  induction l as [|x l IH]; simpl; trivial.
  destruct (f x) eqn:E; simpl; [rewrite E; f_equal|]; trivial.
Qed.


Lemma get_unique_lines_some (fs : files) (file1 file2 t1 t2 : str) :
  fs file1 = Some t1 -> fs file2 = Some t2 ->
  DeduplicateNames.get_unique_lines file1 file2 fs
  = Returned (filter (fun l => negb (mem l (DeduplicateNames.lines_of t1)))
                     (DeduplicateNames.lines_of t2)) fs.
Proof.
  intros H1 H2. unfold DeduplicateNames.get_unique_lines.
  unfold io_bind at 1. rewrite (@read_lines_some _ _ _ H1).
  unfold io_bind. rewrite (@read_lines_some _ _ _ H2). unfold io_ret.
  f_equal. apply filter_ext. intros l.
  unfold DeduplicateNames.not_in_set, DeduplicateNames.to_set.
  now rewrite mem_set_of.
Qed.

Lemma deduplicate_files_some
  (fs : files) (file1 file2 : str) (output_file : option str)
  (t1 t2 : str) :
  fs file1 = Some t1 -> fs file2 = Some t2 ->
  let lines2 := DeduplicateNames.lines_of t2 in
  let kept := filter (fun l => negb (mem l (DeduplicateNames.lines_of t1)))
                     lines2 in
  DeduplicateNames.deduplicate_files file1 file2 output_file fs
  = Returned (Z.of_nat (length lines2), Z.of_nat (length kept),
              (Z.of_nat (length lines2) - Z.of_nat (length kept))%Z)
      (write_file fs (DeduplicateNames.or_default output_file file2)
                  (DeduplicateNames.lines_text kept)).
Proof.
  intros H1 H2. cbv zeta.
  unfold DeduplicateNames.deduplicate_files.
  unfold io_bind at 1. rewrite (@read_lines_some _ _ _ H2).
  unfold io_bind at 1. rewrite (@get_unique_lines_some _ _ _ _ _ H1 H2).
  reflexivity.
Qed.



(** X10. deduplicate_files in place, twice: the second run removes nothing,
    returns the same count twice and zero, and leaves every file as the
    first run left it. *)
Theorem deduplicate_files_twice
  (fs : files) (file1 file2 t1 t2 : str) :
  file1 <> file2 -> fs file1 = Some t1 -> fs file2 = Some t2 ->
  exists counts fs1 k fs2,
    DeduplicateNames.deduplicate_files file1 file2 None fs
    = Returned counts fs1 /\
    DeduplicateNames.deduplicate_files file1 file2 None fs1
    = Returned (k, k, 0%Z) fs2 /\
    snd (fst counts) = k /\
    forall p, fs2 p = fs1 p.
Proof.
  intros Hne H1 H2.
  pose proof (@deduplicate_files_some _ _ _ None _ _ H1 H2) as E1.
  cbv zeta in E1. cbn [DeduplicateNames.or_default] in E1.
  set (lines1 := DeduplicateNames.lines_of t1) in *.
  set (kept := filter _ (DeduplicateNames.lines_of t2)) in *.
  set (fs1 := write_file fs file2 (DeduplicateNames.lines_text kept)) in *.
  assert (F1 : fs1 file1 = Some t1)
    by (unfold fs1; now rewrite write_file_other).
  assert (F2 : fs1 file2 = Some (DeduplicateNames.lines_text kept))
    by apply write_file_same.
  pose proof (@deduplicate_files_some _ _ _ None _ _ F1 F2) as E2.
  cbv zeta in E2. cbn [DeduplicateNames.or_default] in E2.
  assert (Hk : DeduplicateNames.lines_of (DeduplicateNames.lines_text kept)
               = kept)
    by (apply lines_of_lines_text, filter_plain, lines_of_plain).
  rewrite Hk in E2. fold lines1 in E2.
  unfold kept in E2 at 2 4 5. rewrite filter_filter in E2. fold kept in E2.
  rewrite Z.sub_diag in E2.
  exists (Z.of_nat (length (DeduplicateNames.lines_of t2)),
          Z.of_nat (length kept),
          (Z.of_nat (length (DeduplicateNames.lines_of t2))
           - Z.of_nat (length kept))%Z), fs1, (Z.of_nat (length kept)),
         (write_file fs1 file2 (DeduplicateNames.lines_text kept)).
  split; [exact E1|]. split; [exact E2|]. split; [reflexivity|].
  intros p. unfold write_file at 1. destruct (str_eqb p file2) eqn:E; trivial.
  apply str_eqb_eq in E. now subst.
Qed.

Lemma deduplicate_files_twice_witness :
  exists counts fs1 k fs2,
    DeduplicateNames.deduplicate_files (lit "a") (lit "b") None
      (write_file (write_file (fun _ => None) (lit "a") (lit "x"))
                  (lit "b") (lit "x"))
    = Returned counts fs1 /\
    DeduplicateNames.deduplicate_files (lit "a") (lit "b") None fs1
    = Returned (k, k, 0%Z) fs2.
Proof.
  destruct (@deduplicate_files_twice
              (write_file (write_file (fun _ => None) (lit "a") (lit "x"))
                          (lit "b") (lit "x"))
              (lit "a") (lit "b") (lit "x") (lit "x")
              ltac:(discriminate) eq_refl eq_refl)
    as (counts & fs1 & k & fs2 & E1 & E2 & _).
  now exists counts, fs1, k, fs2.
Defined.




(** X12. When file1 or file2 is missing, deduplicate_files,
    case_insensitive_deduplicate and remove_duplicates raise
    FileNotFoundError, and no file has been written. *)
Theorem missing_file_raises
  (fs : files) (file1 file2 : str) (output_file : option str) :
  fs file1 = None \/ fs file2 = None ->
  DeduplicateNames.deduplicate_files file1 file2 output_file fs
  = FileNotFoundError fs /\
  DeduplicateNames.case_insensitive_deduplicate file1 file2 output_file fs
  = FileNotFoundError fs /\
  RemoveDuplicates.remove_duplicates file1 file2 fs = FileNotFoundError fs.
Proof.
  intros H.
  unfold DeduplicateNames.deduplicate_files,
    DeduplicateNames.case_insensitive_deduplicate,
    RemoveDuplicates.remove_duplicates, DeduplicateNames.get_unique_lines,
    RemoveDuplicates.read_lines, DeduplicateNames.read_lines,
    io_bind, read_text, io_ret.
  destruct (fs file1) as [t1|] eqn:E1, (fs file2) as [t2|] eqn:E2;
    rewrite ?E1, ?E2; try (repeat split; reflexivity).
  destruct H; discriminate.
Qed.

Lemma missing_file_raises_witness :
  DeduplicateNames.deduplicate_files (lit "a") (lit "b") None (fun _ => None)
  = FileNotFoundError (fun _ => None).
Proof.
  apply (@missing_file_raises (fun _ => None) (lit "a") (lit "b") None).
  now left.
Defined.

Lemma filter_none (A : Type) (f : A -> bool) (l : list A) :
  (forall x, In x l -> f x = false) -> filter f l = [].
Proof.
  induction l as [|x l IH]; intros H; simpl; trivial.
  rewrite (H x) by now left. apply IH. intros y Hy. apply H. now right.
Qed.

(** X13. remove_duplicates on two files that exist rewrites file2 with its
    lines that are not lines of file1.  The numbers returned are the number
    of distinct lines of file1 and the number of lines of file2 after the
    rewriting (read back from the file), not before.  When both paths are
    the same file, the file is left empty. *)
Theorem remove_duplicates_result
  (fs : files) (file1 file2 t1 t2 : str) :
  fs file1 = Some t1 -> fs file2 = Some t2 ->
  let lines1 := DeduplicateNames.lines_of t1 in
  let lines2 := DeduplicateNames.lines_of t2 in
  let kept := filter (fun l => negb (mem l lines1)) lines2 in
  RemoveDuplicates.remove_duplicates file1 file2 fs
  = Returned (length (unique lines1), length kept)
             (write_file fs file2 (DeduplicateNames.lines_text kept)) /\
  (file1 = file2 ->
   kept = [] /\ write_file fs file2 (DeduplicateNames.lines_text kept) file2
                = Some []).
Proof.
  intros H1 H2. cbv zeta. split.
  - unfold RemoveDuplicates.remove_duplicates, RemoveDuplicates.read_lines,
      RemoveDuplicates.write_lines, write_text.
    fold (DeduplicateNames.read_lines file1).
    fold (DeduplicateNames.read_lines file2).
    unfold io_bind at 1. rewrite (@read_lines_some _ _ _ H1).
    unfold io_bind at 1. rewrite (@read_lines_some _ _ _ H2).
    unfold io_bind at 1.
    rewrite (filter_ext _ (fun l => negb (mem l (DeduplicateNames.lines_of t1))))
      by (intros l; unfold RemoveDuplicates.filter_not_in_set,
            RemoveDuplicates.lines_to_set; now rewrite mem_set_of).
    unfold io_bind.
    rewrite (@read_lines_some _ _ _ (write_file_same _ _ _)). unfold io_ret.
    now rewrite lines_of_lines_text
      by apply filter_plain, lines_of_plain.
  - intros ->. rewrite H1 in H2. injection H2 as ->.
    assert (E : filter (fun l => negb (mem l (DeduplicateNames.lines_of t2)))
                       (DeduplicateNames.lines_of t2) = []).
    { apply filter_none. intros x Hx. apply mem_In in Hx. now rewrite Hx. }
    rewrite E. split; trivial. apply write_file_same.
Qed.

Lemma remove_duplicates_result_witness :
  RemoveDuplicates.remove_duplicates (lit "a") (lit "a")
    (write_file (fun _ => None) (lit "a") (lit "x"))
  = Returned (1, 0)
      (write_file (write_file (fun _ => None) (lit "a") (lit "x"))
                  (lit "a") []).
Proof.
  apply (@remove_duplicates_result
           (write_file (fun _ => None) (lit "a") (lit "x"))
           (lit "a") (lit "a") (lit "x") (lit "x") eq_refl eq_refl).
Defined.

(** ** sort_cypher.py *)

Lemma set_loop_filter (lines acc : list str) :
  fold_left (fun s line =>
               if truthy (strip line) then set_add s (strip line) else s)
            lines acc
  = fold_left set_add (filter truthy (map strip lines)) acc.
Proof.
  revert acc. induction lines as [|l lines IH]; intros acc; simpl; trivial.
  destruct (truthy (strip l)); simpl; apply IH.
Qed.

Lemma remove_duplicates_and_sort_eq (lines : list str) :
  SortCypher.remove_duplicates_and_sort lines
  = sorted (unique (filter truthy (map strip lines))).
Proof.
  unfold SortCypher.remove_duplicates_and_sort. now rewrite set_loop_filter.
Qed.

Lemma sorted_unique_fixed (l : list str) :
  StronglySorted str_le l -> NoDup l -> sorted (unique l) = l.
Proof.
  intros Hs Hn. rewrite unique_nodup_id by trivial.
  apply ordered_perm_eq; [apply sorted_ordered | trivial |].
  symmetry. apply sorted_perm.
Qed.

Lemma remove_duplicates_and_sort_In (lines : list str) (x : str) :
  In x (SortCypher.remove_duplicates_and_sort lines) <->
  x <> [] /\ exists line, In line lines /\ x = strip line.
Proof.
  rewrite remove_duplicates_and_sort_eq, sorted_unique_In, filter_In,
    in_map_iff.
  split.
  - intros [(line & <- & Hl) Hx]. split; [|eauto].
    intros E. now rewrite E in Hx.
  - intros [Hne (line & Hl & ->)]. split; [eauto|].
    now apply truthy_nonempty.
Qed.

Lemma remove_duplicates_and_sort_ordered (lines : list str) :
  StronglySorted str_le (SortCypher.remove_duplicates_and_sort lines) /\
  NoDup (SortCypher.remove_duplicates_and_sort lines).
Proof.
  rewrite remove_duplicates_and_sort_eq. split; [apply sorted_ordered|].
  apply (Permutation_NoDup (sorted_perm _)), unique_NoDup.
Qed.

Lemma remove_duplicates_and_sort_again (lines : list str) :
  SortCypher.remove_duplicates_and_sort
    (SortCypher.remove_duplicates_and_sort lines)
  = SortCypher.remove_duplicates_and_sort lines.
Proof.
  destruct (remove_duplicates_and_sort_ordered lines) as [Hord Hnd].
  rewrite remove_duplicates_and_sort_eq at 1.
  replace (filter truthy
             (map strip (SortCypher.remove_duplicates_and_sort lines)))
    with (SortCypher.remove_duplicates_and_sort lines).
  - now apply sorted_unique_fixed.
  - symmetry.
    assert (Hall : Forall (fun x => x <> [] /\ strip x = x)
                     (SortCypher.remove_duplicates_and_sort lines)).
    { apply Forall_forall. intros x Hx.
      apply remove_duplicates_and_sort_In in Hx.
      destruct Hx as [Hne (line & _ & ->)]. split; trivial.
      apply strip_idem. }
    clear Hord Hnd.
    induction Hall as [|x l [Hne Hx] _ IH]; simpl; trivial.
    now rewrite Hx, truthy_nonempty, IH.
Qed.

(** X14. remove_duplicates_and_sort returns the non-blank lines, stripped,
    each once, in strictly increasing order.  The result is the same for
    every order in which the set gives its elements; applying the function
    to its result changes nothing; and it depends on the lines only through
    the set of their stripped forms. *)
Theorem remove_duplicates_and_sort_result (lines : list str) :
  let result := SortCypher.remove_duplicates_and_sort lines in
  StronglySorted str_lt result /\
  (forall x, In x result <->
             x <> [] /\ exists line, In line lines /\ x = strip line) /\
  (forall elements, NoDup elements ->
     (forall x, In x elements <-> In x result) ->
     sorted elements = result) /\
  SortCypher.remove_duplicates_and_sort result = result /\
  (forall lines',
     (forall x, In x (map strip lines) <-> In x (map strip lines')) ->
     SortCypher.remove_duplicates_and_sort lines' = result).
Proof.
  cbv zeta.
  destruct (remove_duplicates_and_sort_ordered lines) as [Hord Hnd].
  split; [|split; [|split; [|split]]].
  - now apply ordered_nodup_strict.
  - intros x. apply remove_duplicates_and_sort_In.
  - intros elements Hel Hin.
    apply ordered_perm_eq; trivial; [apply sorted_ordered|].
    rewrite <- sorted_perm. now apply NoDup_Permutation.
  - apply remove_duplicates_and_sort_again.
  - intros lines' H. rewrite !remove_duplicates_and_sort_eq.
    apply sorted_unique_eq. intros x. rewrite !filter_In.
    now rewrite H.
Qed.

Lemma remove_duplicates_and_sort_result_witness :
  sorted [lit "b"; lit "a"]
  = SortCypher.remove_duplicates_and_sort
      [lit " b"; []; lit "a "; lit "b"].
Proof.
  destruct (remove_duplicates_and_sort_result
              [lit " b"; []; lit "a "; lit "b"]) as (_ & _ & H & _).
  apply H.
  - repeat constructor; simpl; intuition discriminate.
  - intros x. vm_compute. tauto.
Defined.

Lemma sorted_cypher_text_eq (lines : list str) :
  SortCypher.sorted_cypher_text lines = DeduplicateNames.lines_text lines.
Proof.
  induction lines as [|l lines IH]; [reflexivity|].
  rewrite lines_text_cons, <- IH. simpl. now rewrite <- app_assoc.
Qed.

Lemma read_cypher_lines_chars (text : str) :
  Forall (Forall (fun c => line_char c = true))
         (SortCypher.read_cypher_lines text).
Proof.
  unfold SortCypher.read_cypher_lines. apply Forall_forall. intros x Hx.
  apply in_map_iff in Hx. destruct Hx as (line & <- & Hline).
  pose proof (@file_lines_from_shape _ text [] (le_n _) (Forall_nil _))
    as Hshape.
  rewrite Forall_forall in Hshape.
  destruct (Hshape _ Hline) as (body & Hbody & [-> | ->]).
  - now apply strip_Forall.
  - rewrite strip_snoc_space by reflexivity. now apply strip_Forall.
Qed.

(** X15. sort_cypher.py from file to file: the lines written by
    write_sorted_cypher for the sorted lines of a file are read back by
    read_cypher_file as exactly those lines, and sorting the written text
    again gives the same text. *)
Theorem sorted_cypher_file_read_back (text : str) :
  let result :=
    SortCypher.remove_duplicates_and_sort (SortCypher.read_cypher_lines text)
  in
  let written := SortCypher.sorted_cypher_text result in
  SortCypher.read_cypher_lines written = result /\
  SortCypher.sorted_cypher_text
    (SortCypher.remove_duplicates_and_sort
       (SortCypher.read_cypher_lines written)) = written.
Proof.
  cbv zeta.
  set (result := SortCypher.remove_duplicates_and_sort
                   (SortCypher.read_cypher_lines text)).
  assert (Hplain : Forall plain_line result).
  { apply Forall_forall. intros x Hx.
    apply remove_duplicates_and_sort_In in Hx.
    destruct Hx as [Hne (line & Hl & ->)]. repeat split; trivial.
    - apply strip_idem.
    - apply strip_Forall.
      pose proof (read_cypher_lines_chars text) as H.
      rewrite Forall_forall in H. now apply H. }
  assert (Hread : SortCypher.read_cypher_lines
                    (SortCypher.sorted_cypher_text result) = result).
  { unfold SortCypher.read_cypher_lines.
    rewrite sorted_cypher_text_eq, file_lines_lines_text.
    - rewrite map_map.
      rewrite (map_ext _ strip)
        by (intros l; apply strip_snoc_space; reflexivity).
      now apply map_strip_plain.
    - eapply Forall_impl; [|exact Hplain]. now intros l (_ & _ & Hl). }
  split; trivial. rewrite Hread. f_equal.
  apply remove_duplicates_and_sort_again.
Qed.

(** ** cr.py and conn.py *)

Lemma conn_template_filled (d : str) :
  replace (lit "{m}") d Conn.template
  = lit "MATCH (r:Person {Id: '48'}) OPTIONAL MATCH (s:Person {Id: '"
    ++ d
    ++ lit "'}) WITH r, s  WHERE s IS NOT NULL MERGE (r)-[:CONNECTED_WITH]->(s);".
Proof. reflexivity. Qed.

Lemma conn_statements_from (lines : list str) (m : nat) :
  Conn.statements_from lines m
  = map connection_statement
        (seq m (length (filter truthy (map strip lines)))).
Proof.
  revert m. induction lines as [|line lines IH]; intros m; [reflexivity|].
  cbn [Conn.statements_from map filter].
  destruct (truthy (strip line)).
  - cbn [length seq map]. now rewrite IH, conn_template_filled.
  - apply IH.
Qed.

(** X16. generate_connection_statements returns one statement for every
    non-blank line, numbered 1, 2, 3, ... in the order of the lines: the
    statement number m matches the person with Id m.  The text of the
    lines is not used. *)
Theorem connection_statements_numbered (lines : list str) :
  Conn.generate_connection_statements lines
  = map connection_statement
        (seq 1 (length (filter truthy (map strip lines)))).
Proof. apply conn_statements_from. Qed.

Lemma dec_no_brace (n : nat) : Forall (fun c => c <> "{") (dec n).
Proof.
  unfold dec. induction (Nat.to_uint n) as [|d IH|d IH|d IH|d IH|d IH|d IH
                                            |d IH|d IH|d IH|d IH];
    simpl; constructor; trivial; discriminate.
Qed.

Lemma is_prefix_head (o : str) (c x : ascii) (s : str) :
  x <> c -> is_prefix (c :: o) (x :: s) = false.
Proof.
  intros H. unfold is_prefix, str_eqb. cbn [length firstn].
  destruct (list_eq_dec ascii_dec _ _) as [E|]; trivial. now injection E.
Qed.

(** Characters other than the first of [old] are copied. *)
Lemma replace_from_copy (c : ascii) (o new a s : str) :
  Forall (fun x => x <> c) a ->
  replace_from (c :: o) new (a ++ s) 0
  = a ++ replace_from (c :: o) new s 0.
Proof.
  induction 1 as [|x a Hx _ IH]; [reflexivity|].
  cbn [app replace_from]. now rewrite is_prefix_head, IH.
Qed.

Lemma replace_from_brace (new : str) (x : ascii) (s : str) :
  x <> "n" -> x <> "{" ->
  replace_from ["{"; "n"; "}"] new ("{" :: x :: s) 0
  = "{" :: x :: replace_from ["{"; "n"; "}"] new s 0.
Proof.
  intros H H'. cbn [replace_from].
  rewrite (@is_prefix_head _ "{" x) by trivial.
  replace (is_prefix ["{"; "n"; "}"] ("{" :: x :: s)) with false; trivial.
  symmetry. unfold is_prefix, str_eqb.
  destruct (list_eq_dec ascii_dec _ _) as [E|]; trivial.
  cbn in E. now injection E.
Qed.

Lemma replace_from_skip (old new w s : str) :
  replace_from old new (w ++ s) (length w) = replace_from old new s 0.
Proof.
  induction w as [|c w IH]; simpl; trivial.
Qed.

Lemma is_prefix_app (old s : str) : is_prefix old (old ++ s) = true.
Proof.
  unfold is_prefix. rewrite <- (Nat.add_0_r (length old)), firstn_app_2.
  simpl. rewrite app_nil_r. now apply str_eqb_eq.
Qed.

(** An occurrence of [old] is replaced by [new]. *)
Lemma replace_from_match (c : ascii) (o new s : str) :
  replace_from (c :: o) new ((c :: o) ++ s) 0
  = new ++ replace_from (c :: o) new s 0.
Proof.
  cbn [app replace_from].
  change (c :: o ++ s) with ((c :: o) ++ s). rewrite is_prefix_app.
  cbn [length pred]. now rewrite replace_from_skip.
Qed.

Lemma cr_template_filled (d name : str) :
  Forall (fun c => c <> "{") d ->
  replace (lit "{n}") name (replace (lit "{m}") d Cr.template)
  = lit "MERGE (p" ++ d ++ lit ":Person { Id: " ++ "034" :: d
    ++ "034" :: lit ", Name: " ++ "034" :: name ++ "034" :: lit " });".
Proof.
  intros Hd.
  assert (E : replace (lit "{m}") d Cr.template
              = lit "MERGE (p" ++ d ++ lit ":Person " ++ "{" :: " "
                :: (lit "Id: " ++ ["034"]) ++ d
                ++ ("034" :: lit ", Name: " ++ ["034"])
                ++ lit "{n}" ++ ("034" :: lit " });") ++ [])
    by reflexivity.
  rewrite E. unfold replace. cbn [lit list_ascii_of_string].
  rewrite replace_from_copy by (repeat constructor; discriminate).
  rewrite replace_from_copy by exact Hd.
  rewrite replace_from_copy by (repeat constructor; discriminate).
  rewrite (@replace_from_brace name " ") by discriminate.
  rewrite replace_from_copy by (cbn; repeat constructor; discriminate).
  rewrite replace_from_copy by exact Hd.
  rewrite replace_from_copy by (cbn; repeat constructor; discriminate).
  rewrite replace_from_match.
  rewrite replace_from_copy by (repeat constructor; discriminate).
  reflexivity.
Qed.

Lemma cr_statements_from (lines : list str) (m : nat) :
  Cr.statements_from lines m
  = map (fun mn => cypher_statement (fst mn) (snd mn))
        (combine (seq m (length (filter truthy (map strip lines))))
                 (filter truthy (map strip lines))).
Proof.
  revert m. induction lines as [|line lines IH]; intros m; [reflexivity|].
  cbn [Cr.statements_from map filter].
  destruct (truthy (strip line)).
  - cbn [length seq combine map fst snd].
    now rewrite IH, cr_template_filled by apply dec_no_brace.
  - apply IH.
Qed.

(** X17. generate_cypher_statements returns one statement for every
    non-blank line, in the order of the lines: the statement for the m-th
    non-blank line (m = 1, 2, 3, ...) gives the person the Id m and, as
    Name, the text of that line, stripped and otherwise unchanged (braces
    and quotes in it are neither replaced again nor escaped). *)
Theorem cypher_statements_numbered (lines : list str) :
  let names := filter truthy (map strip lines) in
  Cr.generate_cypher_statements lines
  = map (fun mn => cypher_statement (fst mn) (snd mn))
        (combine (seq 1 (length names)) names) /\
  length (Cr.generate_cypher_statements lines) = length names.
Proof.
  cbv zeta. unfold Cr.generate_cypher_statements.
  rewrite cr_statements_from. split; trivial.
  now rewrite length_map, length_combine, length_seq, Nat.min_id.
Qed.

(** ** Lines kept and lines in common *)

Lemma get_common_lines_some (fs : files) (file1 file2 t1 t2 : str) :
  fs file1 = Some t1 -> fs file2 = Some t2 ->
  DeduplicateNames.get_common_lines file1 file2 fs
  = Returned (filter (fun l => mem l (DeduplicateNames.lines_of t1))
                     (DeduplicateNames.lines_of t2)) fs.
Proof.
  intros H1 H2. unfold DeduplicateNames.get_common_lines.
  unfold io_bind at 1. rewrite (@read_lines_some _ _ _ H1).
  unfold io_bind. rewrite (@read_lines_some _ _ _ H2). unfold io_ret.
  f_equal. apply filter_ext. intros l.
  unfold DeduplicateNames.in_set, DeduplicateNames.to_set.
  now rewrite mem_set_of.
Qed.

Lemma filter_split_perm (A : Type) (f : A -> bool) (l : list A) :
  Permutation (filter (fun x => negb (f x)) l ++ filter f l) l.
Proof.
  induction l as [|x l IH]; simpl; trivial.
  destruct (f x); simpl.
  - rewrite <- Permutation_middle. now constructor.
  - now constructor.
Qed.

(** X18. get_unique_lines and get_common_lines divide the lines of file2:
    together they are the lines of file2 (each as often as it occurs
    there), a line is never in both, and neither reading changes a file. *)
Theorem unique_and_common_lines
  (fs : files) (file1 file2 t1 t2 : str) :
  fs file1 = Some t1 -> fs file2 = Some t2 ->
  exists kept common,
    DeduplicateNames.get_unique_lines file1 file2 fs = Returned kept fs /\
    DeduplicateNames.get_common_lines file1 file2 fs = Returned common fs /\
    Permutation (kept ++ common) (DeduplicateNames.lines_of t2) /\
    length kept + length common = length (DeduplicateNames.lines_of t2) /\
    (forall x, In x kept -> ~ In x common).
Proof.
  intros H1 H2.
  rewrite (@get_unique_lines_some _ _ _ _ _ H1 H2),
    (@get_common_lines_some _ _ _ _ _ H1 H2).
  eexists _, _. split; [reflexivity|]. split; [reflexivity|].
  pose proof (filter_split_perm
                (fun l => mem l (DeduplicateNames.lines_of t1))
                (DeduplicateNames.lines_of t2)) as HP.
  split; [exact HP|]. split.
  - rewrite <- length_app. now apply Permutation_length.
  - intros x Hx Hc. apply filter_In in Hx, Hc.
    destruct Hx as [_ Hx], Hc as [_ Hc]. now rewrite Hc in Hx.
Qed.

Lemma unique_and_common_lines_witness :
  exists kept common : list str,
    DeduplicateNames.get_unique_lines (lit "a") (lit "b")
      (write_file (write_file (fun _ => None) (lit "a") (lit "x"))
                  (lit "b") (lit "x"))
    = Returned kept
        (write_file (write_file (fun _ => None) (lit "a") (lit "x"))
                    (lit "b") (lit "x")) /\
    length kept + length common = 1.
Proof.
  destruct (@unique_and_common_lines
              (write_file (write_file (fun _ => None) (lit "a") (lit "x"))
                          (lit "b") (lit "x"))
              (lit "a") (lit "b") (lit "x") (lit "x") eq_refl eq_refl)
    as (kept & common & E & _ & _ & Hlen & _).
  exists kept, common. split; [exact E | exact Hlen].
Defined.

(** ** compose, pipe and op_compose *)

Lemma compose_from (A : Type) (funcs : list (A -> A)) (f : A -> A) (x : A) :
  fold_left (fun f g => fun x => f (g x)) funcs f x
  = f (fold_right (fun g acc => g acc) x funcs).
Proof.
  revert f. induction funcs as [|g funcs IH]; intros f; simpl; trivial.
Qed.

Lemma pipe_from (A : Type) (funcs : list (A -> A)) (f : A -> A) (x : A) :
  fold_left (fun f g => fun x => g (f x)) funcs f x
  = fold_left (fun x g => g x) funcs (f x).
Proof.
  revert f. induction funcs as [|g funcs IH]; intros f; simpl; trivial.
Qed.

(** X19. compose applies its functions from right to left and pipe from
    left to right: compose of f1, ..., fn at x is f1 (... (fn x)); pipe is
    compose of the reversed list and is op_compose; and compose of two
    lists one after the other is the composition of their composes. *)
Theorem compose_and_pipe (A : Type) (funcs more : list (A -> A)) (x : A) :
  Functional.compose funcs x = fold_right (fun g acc => g acc) x funcs /\
  Functional.pipe funcs x = Functional.compose (rev funcs) x /\
  Functional.pipe funcs x = Functional.op_compose funcs x /\
  Functional.compose (funcs ++ more) x
  = Functional.compose funcs (Functional.compose more x).
Proof.
  unfold Functional.compose, Functional.pipe, Functional.op_compose.
  rewrite !compose_from, !pipe_from. repeat split.
  - now rewrite fold_left_rev_right.
  - now rewrite fold_right_app.
Qed.

(** ** student_services.py *)

Section StudentServices.

Import StudentServices.

Variable float : Type.
Variable at_least_3_5 : float -> bool.

Lemma sorted_set_of_increasing (l : list str) :
  StronglySorted str_lt (sorted (set_of l)).
Proof.
  apply ordered_nodup_strict; [apply sorted_ordered|].
  apply (Permutation_NoDup (sorted_perm _)), unique_NoDup.
Qed.

Lemma has_by_test (x : str) (l : list str) (c : bool) (P : Prop) :
  mem x l = c -> (c = true <-> P) -> (In x l <-> P).
Proof. intros <- H. now rewrite <- mem_In. Qed.

Lemma authorize_campus_services_fields (student : Student float) :
  authorize_campus_services at_least_3_5 student
  = authorize_campus_services (fun b : bool => b)
      {| student_id := []; level := level student;
         status := status student;
         gpa := at_least_3_5 (gpa student); credit_hours := 0%Z;
         is_international := is_international student;
         has_disabilities := has_disabilities student;
         is_athlete := is_athlete student |}.
Proof. now destruct student. Qed.

(** X20. Who is authorized for what.  Every active student gets the seven
    base services and an inactive one none of them; the gym and the
    tutoring center are for full-time students; academic support is for
    undergraduates and the honors program for undergraduates with a GPA of
    3.5 or more; research databases and graduate resources are for graduate
    and doctoral students, dissertation support for doctoral students; the
    three services for international students, students with disabilities
    and athletes follow those attributes alone.  The list is in strictly
    increasing order and holds nothing but these seventeen services, so
    the student's id and credit hours play no part. *)
Theorem authorized_services (student : Student float) :
  let services := authorize_campus_services at_least_3_5 student in
  let has s := In (lit s) services in
  let active := status student <> INACTIVE in
  StronglySorted str_lt services /\
  (forall s, In s (map lit ["library_access"; "student_portal";
                            "email_account"; "wifi_access";
                            "health_services"; "counseling_services";
                            "career_services"]%string) ->
             (In s services <-> active)) /\
  (has "gym_membership" <-> status student = FULL_TIME)%string /\
  (has "tutoring_center" <-> status student = FULL_TIME)%string /\
  (has "academic_support" <-> level student = UNDERGRADUATE)%string /\
  (has "honors_program" <->
   level student = UNDERGRADUATE /\
   at_least_3_5 (gpa student) = true)%string /\
  (has "research_databases" <-> level student <> UNDERGRADUATE)%string /\
  (has "graduate_resources" <-> level student <> UNDERGRADUATE)%string /\
  (has "dissertation_support" <-> level student = DOCTORAL)%string /\
  (has "international_student_services" <->
   is_international student = true)%string /\
  (has "disability_services" <-> has_disabilities student = true)%string /\
  (has "athletic_facilities" <-> is_athlete student = true)%string /\
  (forall s, In s services ->
             In s (map lit ["library_access"; "student_portal";
                            "email_account"; "wifi_access";
                            "gym_membership"; "health_services";
                            "counseling_services"; "career_services";
                            "tutoring_center"; "research_databases";
                            "graduate_resources"; "dissertation_support";
                            "international_student_services";
                            "disability_services"; "athletic_facilities";
                            "honors_program"; "academic_support"]%string)).
Proof.
  cbv zeta. split.
  { unfold authorize_campus_services. apply sorted_set_of_increasing. }
  rewrite authorize_campus_services_fields.
  destruct student as [id l s g h i d a].
  cbn [level status gpa is_international has_disabilities is_athlete].
  generalize (at_least_3_5 g) as b. clear. intros b.
  pose (auth := fun l s b i d a =>
          authorize_campus_services (fun b : bool => b)
            (Build_Student [] l s b 0%Z i d a)).
  change (authorize_campus_services _ _) with (auth l s b i d a).
  pose (test := fun x => mem (lit x) (auth l s b i d a)).
  pose (base := map lit ["library_access"; "student_portal";
                         "email_account"; "wifi_access";
                         "health_services"; "counseling_services";
                         "career_services"]%string).
  pose (CampusService :=
          map lit ["library_access"; "student_portal";
                   "email_account"; "wifi_access";
                   "gym_membership"; "health_services";
                   "counseling_services"; "career_services";
                   "tutoring_center"; "research_databases";
                   "graduate_resources"; "dissertation_support";
                   "international_student_services";
                   "disability_services"; "athletic_facilities";
                   "honors_program"; "academic_support"]%string).
  assert (T : forallb (fun x => Bool.eqb (mem x (auth l s b i d a))
                                  (negb (status_eqb s INACTIVE))) base
              = true /\
              test "gym_membership"%string = status_eqb s FULL_TIME /\
              test "tutoring_center"%string = status_eqb s FULL_TIME /\
              test "academic_support"%string = level_eqb l UNDERGRADUATE /\
              test "honors_program"%string
              = level_eqb l UNDERGRADUATE && b /\
              test "research_databases"%string
              = negb (level_eqb l UNDERGRADUATE) /\
              test "graduate_resources"%string
              = negb (level_eqb l UNDERGRADUATE) /\
              test "dissertation_support"%string = level_eqb l DOCTORAL /\
              test "international_student_services"%string = i /\
              test "disability_services"%string = d /\
              test "athletic_facilities"%string = a /\
              forallb (fun x => mem x CampusService) (auth l s b i d a)
              = true).
  { destruct l, s, b, i, d, a; vm_compute; repeat split. }
  destruct T as (T0 & T).
  split.
  { intros x Hx. rewrite forallb_forall in T0.
    apply (@has_by_test x _ (negb (status_eqb s INACTIVE)) _).
    - apply Bool.eqb_prop, T0, Hx.
    - destruct s; cbn; split; congruence. }
  subst test. cbv beta in T.
  repeat match goal with
         | T : _ /\ _ |- _ /\ _ =>
             let E := fresh "E" in
             destruct T as (E & T); split; [apply (@has_by_test _ _ _ _ E)|]
         end;
    try (destruct s; cbn; split; congruence);
    try (destruct l; cbn; split; congruence);
    try (split; congruence).
  - destruct l, b; cbn; split; try congruence; try tauto;
      intros [? ?]; congruence.
  - intros x Hx. rewrite forallb_forall in T.
    apply mem_In, T, Hx.
Qed.

End StudentServices.

(** ** cr.py: the replacement map and the expressions *)

Section ReplacementMap.

Import Cr.

Lemma dec_inj (n m : nat) : dec n = dec m -> n = m.
Proof.
  unfold dec. intros H.
  apply (f_equal string_of_list_ascii) in H.
  rewrite !string_of_list_ascii_of_string in H.
  apply (f_equal NilEmpty.uint_of_string) in H.
  rewrite !NilEmpty.usu in H. injection H as H.
  apply (f_equal Nat.of_uint) in H.
  now rewrite !DecimalNat.Unsigned.of_to in H.
Qed.

Lemma dec_digits (n : nat) : Forall (fun c => digit c = true) (dec n).
Proof.
  unfold dec. induction (Nat.to_uint n) as [|d IH|d IH|d IH|d IH|d IH|d IH
                                            |d IH|d IH|d IH|d IH];
    simpl; constructor; trivial.
Qed.

Lemma dec_not_empty (n : nat) : dec n <> [].
Proof.
  unfold dec. intros H. pose proof (DecimalNat.Unsigned.of_to n) as E.
  destruct (Nat.to_uint n) eqn:E'; try discriminate H.
  simpl in E. subst n. discriminate E'.
Qed.

Lemma key_inj (i j : nat) : key i = key j -> i = j.
Proof.
  unfold key. intros H. injection H as H.
  apply app_inj_tail in H. now apply dec_inj.
Qed.

Lemma str_eqb_refl (a : str) : str_eqb a a = true.
Proof. now apply str_eqb_eq. Qed.

Lemma str_eqb_neq (a b : str) : a <> b -> str_eqb a b = false.
Proof.
  intros H. destruct (str_eqb a b) eqn:E; trivial.
  now apply str_eqb_eq in E.
Qed.

Lemma get_setitem (d : dict) (k v k' default : str) :
  get (setitem d k v) k' default
  = if str_eqb k k' then v else get d k' default.
Proof.
  induction d as [|[k0 v0] d IH]; simpl.
  - reflexivity.
  - destruct (str_eqb k0 k) eqn:E; cbn [get].
    + apply str_eqb_eq in E. subst k0. now destruct (str_eqb k k').
    + rewrite IH. destruct (str_eqb k0 k') eqn:E'; trivial.
      apply str_eqb_eq in E'. subst k0.
      destruct (str_eqb k k') eqn:E2; trivial.
      apply str_eqb_eq in E2. subst k'. now rewrite str_eqb_refl in E.
Qed.

Lemma get_key_setitem (d : dict) (i j : nat) (v default : str) :
  get (setitem d (key i) v) (key j) default
  = if Nat.eqb i j then v else get d (key j) default.
Proof.
  rewrite get_setitem. destruct (Nat.eqb_spec i j) as [->|N].
  - now rewrite str_eqb_refl.
  - rewrite str_eqb_neq; trivial. intros H. now apply key_inj in H.
Qed.

(** The value of the key number [k] after the loop has run over [lines],
    the first of which has the index [i]. *)
Lemma replacement_map_from_get (lines : list str) (i : nat) (d : dict)
  (k : nat) (default : str) :
  get (replacement_map_from lines i d) (key k) default
  = if Nat.ltb k i then get d (key k) default
    else if truthy (nth (k - i) lines []) then nth (k - i) lines []
    else match k - i with
         | S j => if truthy (nth j lines []) then nth j lines []
                  else get d (key k) default
         | O => get d (key k) default
         end.
Proof.
  revert i d. induction lines as [|line rest IH]; intros i d.
  - cbn [replacement_map_from]. destruct (Nat.ltb k i); trivial.
    destruct (k - i) as [|[|j]]; reflexivity.
  - cbn [replacement_map_from]. rewrite IH.
    assert (G : get (if truthy line
                     then setitem (setitem d (key i) line) (key (S i)) line
                     else d) (key k) default
                = if truthy line && (Nat.eqb k i || Nat.eqb k (S i))
                  then line else get d (key k) default).
    { destruct (truthy line); cbn [andb]; trivial.
      rewrite !get_key_setitem. rewrite (Nat.eqb_sym (S i)), (Nat.eqb_sym i).
      destruct (Nat.eqb k (S i)) eqn:E1, (Nat.eqb k i); trivial. }
    rewrite G.
    destruct (Nat.ltb_spec k i) as [L|L].
    + replace (Nat.ltb k (S i)) with true
        by (symmetry; apply Nat.ltb_lt; lia).
      replace (Nat.eqb k i) with false by (symmetry; apply Nat.eqb_neq; lia).
      replace (Nat.eqb k (S i)) with false
        by (symmetry; apply Nat.eqb_neq; lia).
      now rewrite andb_false_r.
    + destruct (Nat.eq_dec k i) as [->|N].
      * replace (Nat.ltb i (S i)) with true
          by (symmetry; apply Nat.ltb_lt; lia).
        rewrite Nat.eqb_refl, Nat.sub_diag. cbn [orb nth].
        rewrite andb_true_r. now destruct (truthy line).
      * replace (Nat.ltb k (S i)) with false
          by (symmetry; apply Nat.ltb_ge; lia).
        replace (Nat.eqb k i) with false
          by (symmetry; apply Nat.eqb_neq; lia).
        replace (k - i) with (S (k - S i)) by lia. cbn [nth orb].
        destruct (truthy (nth (k - S i) rest [])); trivial.
        destruct (k - S i) as [|j] eqn:Ek.
        -- replace (Nat.eqb k (S i)) with true
             by (symmetry; apply Nat.eqb_eq; lia).
           cbn [nth]. rewrite andb_true_r. reflexivity.
        -- replace (Nat.eqb k (S i)) with false
             by (symmetry; apply Nat.eqb_neq; lia).
           rewrite andb_false_r. cbn [nth]. reflexivity.
Qed.

(** Every way in which a greedy run of single characters can end is
    followed by the rest of the run or by what follows the run. *)
Lemma iterate_chr_afters (p : ascii -> bool) (g r : str) (fuel : nat)
  (bef : str) (c : ascii) (cp : option str) :
  Forall (fun x => p x = true) g ->
  match r with [] => True | x :: _ => p x = false end ->
  Forall (fun st' => after st' = r \/
                     match after st' with
                     | x :: _ => p x = true
                     | [] => False
                     end)
         (iterate (run (Chr p)) fuel (MState bef (c :: g ++ r) cp)).
Proof.
  intros Hg Hr. revert bef c g Hg.
  induction fuel as [|fuel IH]; intros bef c g Hg.
  - cbn [iterate run after]. destruct (p c); [|constructor].
    cbn [flat_map]. rewrite app_nil_r.
    assert (E : forall b : bool,
              (if b then [] else []) = ([] : list mstate))
      by now intros [|].
    rewrite E. cbn [app]. constructor; [|constructor].
    destruct Hg as [|x g Hx Hg]; cbn [after app]; auto.
  - rewrite iterate_eq. cbn [run after before cap].
    destruct (p c); [|constructor]. cbn [flat_map]. rewrite app_nil_r.
    apply Forall_app. split.
    + destruct (progress _ _); [|constructor].
      destruct Hg as [|x g Hx Hg]; cbn [app].
      * rewrite iterate_eq. cbn [run after].
        destruct r as [|x r]; [constructor|]. rewrite Hr. constructor.
      * apply IH, Hg.
    + constructor; [|constructor].
      destruct Hg as [|x g Hx Hg]; cbn [after app]; auto.
Qed.

Lemma digits_span (t : str) :
  exists g r, t = g ++ r /\ Forall (fun x => digit x = true) g /\
              match r with [] => True | x :: _ => digit x = false end.
Proof.
  induction t as [|c t (g & r & -> & Hg & Hr)].
  - now exists [], [].
  - destruct (digit c) eqn:E.
    + exists (c :: g), r. repeat split; trivial. now constructor.
    + exists [], (c :: g ++ r). repeat split; trivial.
Qed.

Lemma run_brace_none (p : ascii -> bool) (r : str) (l : list mstate) :
  match r with [] => True | x :: _ => x <> "}" end ->
  p "}" = false ->
  Forall (fun st' => after st' = r \/
                     match after st' with
                     | x :: _ => p x = true
                     | [] => False
                     end) l ->
  flat_map (run (Chr (Ascii.eqb "}"))) l = [].
Proof.
  intros Hr Hp. induction 1 as [|st l Hst _ IH]; trivial.
  cbn [flat_map]. rewrite IH, app_nil_r. cbn [run].
  destruct Hst as [->|Hst].
  - destruct r as [|x r]; trivial.
    destruct (Ascii.eqb_spec "}" x); [congruence|reflexivity].
  - destruct (after st) as [|x t]; trivial.
    destruct (Ascii.eqb_spec "}" x); [congruence|reflexivity].
Qed.

(** The pattern at the cursor: an opening brace, digits, a closing
    brace. *)
Lemma exec_pattern_some (bef g rest : str) :
  g <> [] -> Forall (fun x => digit x = true) g ->
  exec pattern bef ("{" :: g ++ "}" :: rest)
  = Some (MState ("}" :: rev g ++ "{" :: bef) rest None).
Proof.
  intros Hne Hg. destruct g as [|c g]; [congruence|]. clear Hne.
  inversion Hg as [|? ? Hc Hg']. subst.
  unfold exec, pattern, chr. cbn [run after before cap].
  change (Ascii.eqb "{" "{") with true. cbn [flat_map]. rewrite app_nil_r.
  assert (L : length (c :: g ++ "}" :: rest)
              <= length ((c :: g) ++ "}" :: rest)) by (simpl; lia).
  destruct (@iterate_chr_hd digit _ ("{" :: bef) c (g ++ "}" :: rest) None
              Hc L) as (g' & r & E & Hg2 & Hr & Hhd).
  assert (g' = g /\ r = "}" :: rest) as [-> ->].
  { clear Hhd L Hg. revert g' E Hg2. induction Hg' as [|x g Hx Hg' IH];
      intros g' E Hg2.
    - destruct g' as [|y g']; [now simpl in E|].
      simpl in E. injection E as <- _.
      inversion Hg2 as [|? ? Hb _]. discriminate Hb.
    - destruct g' as [|y g'].
      + simpl in E. subst r. simpl in Hr. congruence.
      + simpl in E. injection E as <- E.
        inversion Hg2 as [|? ? _ Hg3]. subst.
        destruct (IH g' E Hg3) as [-> ->]. auto. }
  cbn [app] in Hhd. cbn [app].
  destruct (iterate _ _ _) as [|st l]; [discriminate|].
  injection Hhd as ->. cbn [flat_map run after before cap].
  change (Ascii.eqb "}" "}") with true. cbn [app hd_error rev].
  now rewrite <- app_assoc.
Qed.

Lemma pattern_cases (aft : str) :
  (exists g rest, g <> [] /\ Forall (fun x => digit x = true) g /\
                  aft = "{" :: g ++ "}" :: rest) \/
  (forall bef, exec pattern bef aft = None).
Proof.
  destruct aft as [|a aft]; [now right|].
  destruct (Ascii.eqb_spec "{" a) as [<-|N].
  2:{ right. intros bef. unfold exec, pattern, chr. cbn [run after].
      destruct (Ascii.eqb_spec "{" a); [congruence|reflexivity]. }
  destruct aft as [|c t].
  { right. intros bef. reflexivity. }
  destruct (digit c) eqn:Ec.
  2:{ right. intros bef. unfold exec, pattern, chr.
      cbn [run after before cap]. change (Ascii.eqb "{" "{") with true.
      cbn [flat_map]. rewrite app_nil_r, iterate_eq. cbn [run after].
      now rewrite Ec. }
  destruct (digits_span t) as (g & r & -> & Hg & Hr).
  destruct r as [|x r].
  - right. intros bef. unfold exec, pattern, chr.
    cbn [run after before cap]. change (Ascii.eqb "{" "{") with true.
    cbn [flat_map]. rewrite app_nil_r.
    exact (f_equal (@hd_error _)
             (@run_brace_none digit [] _ I eq_refl
                (@iterate_chr_afters digit g [] _ ("{" :: bef) c None
                   Hg I))).
  - destruct (Ascii.eqb_spec "}" x) as [<-|Nx].
    + left. exists (c :: g), r. repeat split; trivial; [discriminate|].
      now constructor.
    + right. intros bef. unfold exec, pattern, chr.
      cbn [run after before cap]. change (Ascii.eqb "{" "{") with true.
      cbn [flat_map]. rewrite app_nil_r.
      assert (Nx' : x <> "}") by congruence.
      exact (f_equal (@hd_error _)
               (@run_brace_none digit (x :: r) _ Nx' eq_refl
                  (@iterate_chr_afters digit g (x :: r) _ ("{" :: bef) c
                     None Hg Hr))).
Qed.

Lemma sub_with_from_skip (r : regex) (repl : str -> str) (w rest bef : str) :
  sub_with_from r repl bef (w ++ rest) (length w)
  = sub_with_from r repl (rev w ++ bef) rest 0.
Proof.
  revert bef. induction w as [|c w IH]; intros bef; simpl; trivial.
  now rewrite IH, <- app_assoc.
Qed.

Lemma width_pattern (bef g rest : str) :
  width bef (MState ("}" :: rev g ++ "{" :: bef) rest None)
  = S (S (length g)).
Proof.
  unfold width. cbn [before length]. rewrite length_app, length_rev.
  cbn [length]. lia.
Qed.

(** The pattern does not look at the text before the cursor. *)
Lemma sub_with_pattern_bef (repl : str -> str) (aft bef bef' : str)
  (skip : nat) :
  sub_with_from pattern repl bef aft skip
  = sub_with_from pattern repl bef' aft skip.
Proof.
  revert bef bef' skip. induction aft as [|c t IH]; intros bef bef' skip.
  - destruct skip; reflexivity.
  - destruct skip as [|n]; [|apply IH]. cbn [sub_with_from].
    destruct (pattern_cases (c :: t)) as [(g & rest & Hne & Hg & E)|N].
    + injection E as -> ->.
      rewrite !exec_pattern_some, !width_pattern by trivial.
      f_equal. apply IH.
    + rewrite !N. f_equal. apply IH.
Qed.

Lemma replace_expressions_match (g rest : str) (d : dict) :
  g <> [] -> Forall (fun x => digit x = true) g ->
  replace_expressions ("{" :: g ++ "}" :: rest) d
  = get d ("{" :: g ++ ["}"]) ("{" :: g ++ ["}"])
    ++ replace_expressions rest d.
Proof.
  intros Hne Hg. unfold replace_expressions, sub_with.
  cbn [sub_with_from]. rewrite exec_pattern_some, width_pattern by trivial.
  assert (F : firstn (S (S (length g))) ("{" :: g ++ "}" :: rest)
              = "{" :: g ++ ["}"]).
  { replace ("{" :: g ++ "}" :: rest) with (("{" :: g ++ ["}"]) ++ rest)
      by (cbn [app]; now rewrite <- app_assoc).
    replace (S (S (length g))) with (length ("{" :: g ++ ["}"]) + 0)
      by (cbn [length]; rewrite length_app; simpl; lia).
    rewrite firstn_app_2. cbn [firstn]. apply app_nil_r. }
  rewrite F. f_equal.
  replace (g ++ "}" :: rest) with ((g ++ ["}"]) ++ rest)
    by now rewrite <- app_assoc.
  replace (S (length g)) with (length (g ++ ["}"]))
    by (rewrite length_app; simpl; lia).
  rewrite sub_with_from_skip. apply sub_with_pattern_bef.
Qed.


Lemma get_absent (lines : list str) (i : nat) (d : dict) (w default : str) :
  (forall k, w <> key k) ->
  get (replacement_map_from lines i d) w default = get d w default.
Proof.
  intros H. revert i d. induction lines as [|line rest IH]; intros i d;
    cbn [replacement_map_from]; trivial.
  rewrite IH. destruct (truthy line); trivial.
  rewrite !get_setitem, !str_eqb_neq; auto.
Qed.

(** X21. The replacement map of create_replacement_map, read at the key
    of the number k in braces: the value is line k, counted from 0, when
    that line is not empty; otherwise it is line k - 1 when there is one
    and it is not empty; otherwise the key is absent.  So where both
    readings apply the count from 0 wins.  A string that is not such a key
    is never present. *)
Theorem replacement_map_lookup (lines : list str) (k : nat)
  (default : str) :
  let replacement_map := create_replacement_map lines in
  let line i := nth i lines [] in
  get replacement_map (key k) default
  = (if truthy (line k) then line k
     else match k with
          | S j => if truthy (line j) then line j else default
          | O => default
          end) /\
  (forall w, (forall i, w <> key i) -> get replacement_map w default = default).
Proof.
  cbv zeta. unfold create_replacement_map. split.
  - rewrite replacement_map_from_get. cbn [Nat.ltb Nat.leb].
    now rewrite Nat.sub_0_r.
  - intros w H. now rewrite get_absent.
Qed.



(** X23. With the map made from the lines, the expression for the number
    k at the head of a text is replaced by line k counted from 0, or else
    by line k - 1, when that line is not empty, and is left as it is
    otherwise. *)
Theorem expression_replaced_by_line (lines : list str) (k : nat)
  (rest : str) :
  let replacement_map := create_replacement_map lines in
  let line i := nth i lines [] in
  replace_expressions (key k ++ rest) replacement_map
  = (if truthy (line k) then line k
     else match k with
          | S j => if truthy (line j) then line j else key k
          | O => key k
          end)
    ++ replace_expressions rest replacement_map.
Proof.
  cbv zeta. unfold key at 1. cbn [app]. rewrite <- app_assoc. cbn [app].
  rewrite replace_expressions_match
    by (apply dec_not_empty || apply dec_digits).
  f_equal. fold (key k). unfold create_replacement_map.
  rewrite replacement_map_from_get. cbn [Nat.ltb Nat.leb].
  now rewrite Nat.sub_0_r.
Qed.

End ReplacementMap.

(** ** deduplicate_names.py: custom filters *)

(** X24. The function that create_filter returns reads file2 only: it
    returns the lines of file2 that satisfy the predicate, in their order,
    whether file1 exists or not, and raises FileNotFoundError exactly when
    file2 is missing.  With the predicate of get_unique_lines and a file1
    that exists it is get_unique_lines. *)
Theorem create_filter_reads_file2
  (fs : files) (predicate : str -> bool) (file1 file2 : str) :
  DeduplicateNames.create_filter predicate file1 file2 fs
  = match fs file2 with
    | Some t2 => Returned (filter predicate (DeduplicateNames.lines_of t2)) fs
    | None => FileNotFoundError fs
    end /\
  (forall t1, fs file1 = Some t1 ->
     DeduplicateNames.create_filter
       (DeduplicateNames.not_in_set
          (DeduplicateNames.to_set (DeduplicateNames.lines_of t1)))
       file1 file2 fs
     = DeduplicateNames.get_unique_lines file1 file2 fs).
Proof.
  assert (C : forall p,
            DeduplicateNames.create_filter p file1 file2 fs
            = match fs file2 with
              | Some t2 =>
                  Returned (filter p (DeduplicateNames.lines_of t2)) fs
              | None => FileNotFoundError fs
              end).
  { intros p. unfold DeduplicateNames.create_filter, io_bind.
    destruct (fs file2) as [t2|] eqn:E2.
    - now rewrite (@read_lines_some _ _ _ E2).
    - now rewrite (@read_lines_none _ _ E2). }
  split; [apply C|]. intros t1 H1. rewrite C.
  unfold DeduplicateNames.get_unique_lines. unfold io_bind at 1.
  rewrite (@read_lines_some _ _ _ H1). unfold io_bind.
  destruct (fs file2) as [t2|] eqn:E2.
  - now rewrite (@read_lines_some _ _ _ E2).
  - now rewrite (@read_lines_none _ _ E2).
Qed.
